(** * Veil: the policy evaluation core, embedded in Rocq

    A shallow embedding of the rule-matching utilities ([matchesPattern],
    [findMatchingRule], [evaluateRules], [applyMask]), of the JSON
    configuration loader ([parseJsonConfig]), of the rule packs
    ([RULE_PACKS], [fromPacks]) and of configuration merging
    ([mergeConfigs]) of the Veil TypeScript sources, followed by the
    presets over the packs ([fromCategory], [recommended], [strict]), the
    shell wrapper utilities ([getShellWrapper], [addWrapperToContent],
    [removeWrapperFromContent], ...) and the discovery of the configuration
    file ([findConfigDir], [getConfigFilePath]).

    JavaScript values are modelled as the code uses them: strings as
    [string] (one character per code unit), plain objects used as
    dictionaries as [gmap string _], arrays as lists, [RegExp] objects as an
    immutable descriptor plus a mutable [lastIndex] kept in a store indexed
    by object identity, exceptions as an explicit completion type. *)

From Stdlib Require Import Ascii DecimalString DecimalNat.
From stdpp Require Import base option list gmap strings.

Local Open Scope string_scope.
Set Warnings "-register-all".

(** ** The JavaScript runtime the sources rely on *)
Module JS.

(** Errors thrown by the built-ins that the embedded code reaches. *)
Inductive Error : Type :=
| TypeError
| SyntaxError.

(** Completion of an evaluation that may throw. *)
Inductive completion (A : Type) : Type :=
| Normal (a : A)
| Throw (e : Error).
Arguments Normal {A} a.
Arguments Throw {A} e.

(** *** Strings *)

(** [s.startsWith(p)]. *)
Fixpoint startsWith (s p : string) {struct p} : bool :=
  match p, s with
  | EmptyString, _ => true
  | String _ _, EmptyString => false
  | String a p', String b s' => if Ascii.eqb a b then startsWith s' p' else false
  end.

(** [s.includes(p)]: [p] occurs at some position of [s]. *)
Fixpoint includes (s p : string) : bool :=
  startsWith s p ||
  match s with
  | EmptyString => false
  | String _ s' => includes s' p
  end.

(** [s[i]] inside a template literal: an out-of-range index reads
    [undefined], which a template prints as the word. *)
Definition char_at_template (s : string) (i : nat) : string :=
  match String.get i s with
  | Some c => String c EmptyString
  | None => "undefined"
  end.

(** [c.repeat(n)] for a one-character string [c]. *)
Fixpoint repeat_char (c : ascii) (n : nat) : string :=
  match n with
  | O => EmptyString
  | S n' => String c (repeat_char c n')
  end.

(** [String(i)] for an array index [i]. *)
Definition number_to_string (i : nat) : string :=
  NilEmpty.string_of_uint (Nat.to_uint i).

(** *** Regular expression objects *)

Record RegExpFlags : Type := mkFlags {
  global : bool;
  ignoreCase : bool;
  multiline : bool;
  sticky : bool
}.

(** The flag string ["i"]. *)
Definition flags_i : RegExpFlags :=
  {| global := false; ignoreCase := true; multiline := false; sticky := false |}.

(** A [RegExp] object: its identity, its source text and its flags. Two
    descriptors with the same [re_id] denote the same object. *)
Record RegExp : Type := mkRegExp {
  re_id : nat;
  source : string;
  flags : RegExpFlags
}.

(** The [lastIndex] property of every [RegExp] object, by identity; an
    object that was never written reads [0], the value it is created
    with. *)
Abbreviation store := (gmap nat nat).

Definition lastIndex (σ : store) (R : RegExp) : nat :=
  default 0 (σ !! re_id R).

(** The host's pattern compiler and matcher. [SyntaxOk src fl] tells
    whether [new RegExp(src, fl)] compiles; [Matcher src fl input i] runs
    the compiled pattern on [input] at index [i] and yields the end index
    of the match, or nothing. *)
Class RegExpEngine : Type := {
  SyntaxOk : string → RegExpFlags → bool;
  Matcher : string → RegExpFlags → string → nat → option nat
}.

(** The indices the exec loop tries, from [lastIndex] on: a sticky
    expression tries one, the others advance up to the length of the
    input; beyond the length there is nothing to try. *)
Definition candidates (fl : RegExpFlags) (len i : nat) : list nat :=
  if sticky fl then (if (i <=? len)%nat then [i] else [])
  else seq i (S len - i)%nat.

Fixpoint first_match (m : nat → option nat) (idxs : list nat) : option nat :=
  match idxs with
  | [] => None
  | i :: rest =>
      match m i with
      | Some e => Some e
      | None => first_match m rest
      end
  end.

Definition stateful (fl : RegExpFlags) : bool := global fl || sticky fl.

(** [RegExpBuiltinExec]: reads [lastIndex] when the expression is global
    or sticky (otherwise starts at 0), and in that case writes it back:
    the end of the match on success, 0 on failure. *)
Definition RegExpBuiltinExec `{RegExpEngine} (R : RegExp) (S : string)
    (σ : store) : option nat * store :=
  let fl := flags R in
  let start := if stateful fl then lastIndex σ R else 0 in
  match first_match (Matcher (source R) fl S)
                    (candidates fl (String.length S) start) with
  | Some e => (Some e, if stateful fl then <[re_id R := e]> σ else σ)
  | None => (None, if stateful fl then <[re_id R := 0]> σ else σ)
  end.

(** [R.test(S)]. *)
Definition RegExp_test `{RegExpEngine} (R : RegExp) (S : string)
    (σ : store) : bool * store :=
  let '(r, σ') := RegExpBuiltinExec R S σ in (bool_decide (is_Some r), σ').

End JS.

(** ** Rule matching utilities *)
Module Matching.
Import JS.

Inductive RuleAction : Type := allow | deny | mask | rewrite.

(** [string | RegExp]. *)
Inductive Pattern : Type :=
| PString (s : string)
| PRegExp (re : RegExp).

(** What the utilities read of a rule: the fields of [BaseRule], and
    whether the object has a [safeAlternatives] property (the [in] test of
    [getRuleTypeName]). *)
Class BaseRule (T : Type) : Type := {
  rule_match : T → Pattern;
  rule_action : T → RuleAction;
  rule_reason : T → option string;
  has_safeAlternatives : T → bool
}.

(** Modelled from the spec: the rule types of [types.ts], which is not
    among the sources. A file rule has a pattern, an action and an optional
    reason; an env rule adds an optional replacement; a cli rule adds
    optional safe alternatives and an optional rewrite template. *)
Record FileRule : Type := mkFileRule {
  file_match : Pattern;
  file_action : RuleAction;
  file_reason : option string
}.

Record EnvRule : Type := mkEnvRule {
  env_match : Pattern;
  env_action : RuleAction;
  env_reason : option string;
  env_replacement : option string
}.

Record CliRule : Type := mkCliRule {
  cli_match : Pattern;
  cli_action : RuleAction;
  cli_reason : option string;
  cli_safeAlternatives : option (list string);
  cli_rewrite : option string
}.

#[export] Instance FileRule_BaseRule : BaseRule FileRule := {|
  rule_match := file_match;
  rule_action := file_action;
  rule_reason := file_reason;
  has_safeAlternatives := λ _, false
|}.

#[export] Instance EnvRule_BaseRule : BaseRule EnvRule := {|
  rule_match := env_match;
  rule_action := env_action;
  rule_reason := env_reason;
  has_safeAlternatives := λ _, false
|}.

#[export] Instance CliRule_BaseRule : BaseRule CliRule := {|
  rule_match := cli_match;
  rule_action := cli_action;
  rule_reason := cli_reason;
  has_safeAlternatives := λ r, bool_decide (is_Some (cli_safeAlternatives r))
|}.

(** The value [evaluateRules] returns on a match. *)
Record Evaluation (T : Type) : Type := mkEvaluation {
  action : RuleAction;
  rule : T;
  policyRef : string
}.
Arguments mkEvaluation {T} _ _ _.
Arguments action {T} _.
Arguments rule {T} _.
Arguments policyRef {T} _.

(** [generatePolicyRef], and the same template in [evaluateRules]. *)
Definition generatePolicyRef (ruleType : string) (index : nat) : string :=
  ruleType +:+ "[" +:+ number_to_string index +:+ "]".

Section Evaluate.
Context `{RegExpEngine} {T : Type} `{BaseRule T}.

Definition matchesPattern (target : string) (pattern : Pattern)
    (σ : store) : bool * store :=
  match pattern with
  | PString p => (String.eqb target p || includes target p, σ)
  | PRegExp re => RegExp_test re target σ
  end.

(** The loop of [findMatchingRule], entered at index [i] with the rules
    from [i] on. The elements of a [T[]] are rule objects, so the
    truthiness test on [rules[i]] always passes. *)
Fixpoint findMatchingRule_from (i : nat) (target : string)
    (rules : list T) (σ : store) : option (T * nat) * store :=
  match rules with
  | [] => (None, σ)
  | r :: rest =>
      let '(b, σ') := matchesPattern target (rule_match r) σ in
      if b then (Some (r, i), σ')
      else findMatchingRule_from (S i) target rest σ'
  end.

Definition findMatchingRule (target : string) (rules : list T)
    (σ : store) : option (T * nat) * store :=
  findMatchingRule_from 0 target rules σ.

Definition getRuleTypeName (r : T) : string :=
  if has_safeAlternatives r then "cliRules" else "rules".

Definition evaluateRules (target : string) (rules : list T)
    (σ : store) : option (Evaluation T) * store :=
  match findMatchingRule target rules σ with
  | (None, σ') => (None, σ')
  | (Some (r, index), σ') =>
      let ruleType := getRuleTypeName r in
      (Some {| action := rule_action r;
               rule := r;
               policyRef := generatePolicyRef ruleType index |}, σ')
  end.

(** The store when the loop has tested all of [rules], in order, without
    returning. *)
Definition scan_store (target : string) (rules : list T) (σ : store) : store :=
  foldl (λ σ' r, (matchesPattern target (rule_match r) σ').2) σ rules.

(** [target] matches the pattern of [rules[j]] when the loop, started in
    [σ], reaches index [j]. *)
Definition matches_at (target : string) (rules : list T) (σ : store)
    (j : nat) : Prop :=
  ∃ r, rules !! j = Some r ∧
       (matchesPattern target (rule_match r)
          (scan_store target (take j rules) σ)).1 = true.

(** Patterns whose test neither reads nor writes [lastIndex]: literal
    strings, and expressions without the [g] and [y] flags. *)
Definition stateless_pattern (p : Pattern) : bool :=
  match p with
  | PString _ => true
  | PRegExp re => negb (stateful (flags re))
  end.

Definition stateless_rules (rules : list T) : Prop :=
  Forall (λ r, stateless_pattern (rule_match r) = true) rules.
End Evaluate.

(** [applyMask(value, replacement?)]; an absent replacement is [None].
    The subtraction is reached only with a length above 4. *)
Definition applyMask (value : string) (replacement : option string) : string :=
  match replacement with
  | Some r => r
  | None =>
      let len := String.length value in
      if (len <=? 4)%nat then "****"
      else char_at_template value 0
           +:+ repeat_char "*" (Nat.min (len - 2) 8)
           +:+ char_at_template value (len - 1)
  end.

End Matching.

(** ** A reference engine for closed examples

    An executable engine for the fragment of the pattern language made of
    alternatives ([|]) of pattern characters with the assertions [^] and
    [$]. Sources that use any other syntax character are outside the
    fragment and this engine refuses them; the closed examples below stay
    inside it. *)
Module Fragment.
Import JS.

Inductive Term : Type :=
| Bol
| Eol
| Chr (c : ascii).

Definition other_syntax_characters : list ascii :=
  ["\"; "."; "*"; "+"; "?"; "("; ")"; "["; "]"; "{"; "}"; "|"]%char.

Definition compile_term (c : ascii) : option Term :=
  if Ascii.eqb c "^" then Some Bol
  else if Ascii.eqb c "$" then Some Eol
  else if existsb (Ascii.eqb c) other_syntax_characters then None
  else Some (Chr c).

Fixpoint compile_alternative (s : string) : option (list Term) :=
  match s with
  | EmptyString => Some []
  | String c s' =>
      match compile_term c, compile_alternative s' with
      | Some t, Some ts => Some (t :: ts)
      | _, _ => None
      end
  end.

(** The source cut at every [|]. *)
Fixpoint alternatives (s : string) : list string :=
  match s with
  | EmptyString => [EmptyString]
  | String c s' =>
      if Ascii.eqb c "|" then EmptyString :: alternatives s'
      else match alternatives s' with
           | a :: rest => String c a :: rest
           | [] => [String c EmptyString]
           end
  end.

Definition compile (src : string) : option (list (list Term)) :=
  mapM compile_alternative (alternatives src).

(** Case folding of the letters a to z under the [i] flag. *)
Definition canonicalize (fl : RegExpFlags) (c : ascii) : ascii :=
  let n := nat_of_ascii c in
  if ignoreCase fl && (97 <=? n)%nat && (n <=? 122)%nat
  then ascii_of_nat (n - 32) else c.

Definition is_line_terminator (o : option ascii) : bool :=
  match o with
  | Some c => Ascii.eqb c "010" || Ascii.eqb c "013"
  | None => false
  end.

Fixpoint match_terms (fl : RegExpFlags) (ts : list Term) (input : string)
    (i : nat) : option nat :=
  match ts with
  | [] => Some i
  | Bol :: ts' =>
      if (i =? 0)%nat
         || (multiline fl && is_line_terminator (String.get (i - 1) input))
      then match_terms fl ts' input i else None
  | Eol :: ts' =>
      if (i =? String.length input)%nat
         || (multiline fl && is_line_terminator (String.get i input))
      then match_terms fl ts' input i else None
  | Chr c :: ts' =>
      match String.get i input with
      | Some d =>
          if Ascii.eqb (canonicalize fl c) (canonicalize fl d)
          then match_terms fl ts' input (S i) else None
      | None => None
      end
  end.

Fixpoint match_alternatives (fl : RegExpFlags) (alts : list (list Term))
    (input : string) (i : nat) : option nat :=
  match alts with
  | [] => None
  | ts :: rest =>
      match match_terms fl ts input i with
      | Some e => Some e
      | None => match_alternatives fl rest input i
      end
  end.

Definition engine : RegExpEngine := {|
  SyntaxOk := λ src _, bool_decide (is_Some (compile src));
  Matcher := λ src fl input i,
    match compile src with
    | Some alts => match_alternatives fl alts input i
    | None => None
    end
|}.

End Fragment.

(** ** Loading a [.veilrc.json] configuration *)
Module WrapUtils.
Import JS.

(** The values a parsed JSON document is made of, and the [RegExp] objects
    the loader puts in their place. Numbers are never inspected. *)
Inductive jsval : Type :=
| JUndefined
| JNull
| JBool (b : bool)
| JNumber (n : Z)
| JString (s : string)
| JArray (items : list jsval)
| JObject (fields : list (string * jsval))
| JRegExp (re : RegExp).

(** A rule as [JSON.parse] returns it: an object with its properties. *)
Abbreviation rule_object := (gmap string jsval).

(** [VeilConfig], as far as the loader reads and writes it: each of the
    three arrays may be absent. *)
Record VeilConfig : Type := mkVeilConfig {
  fileRules : option (list rule_object);
  envRules : option (list rule_object);
  cliRules : option (list rule_object)
}.

(** Evaluation that creates objects and may throw: the next free object
    identity is threaded through. *)
Definition Eval (A : Type) : Type := nat → completion (A * nat).

Definition ret {A : Type} (a : A) : Eval A := λ next, Normal (a, next).

Definition bind {A B : Type} (m : Eval A) (k : A → Eval B) : Eval B :=
  λ next,
    match m next with
    | Normal (a, next') => k a next'
    | Throw e => Throw e
    end.

Notation "'let*' x ':=' m 'in' k" := (bind m (λ x, k))
  (at level 10, x name, m at level 100, k at level 200, only parsing).

(** [new RegExp(pattern, flags)]. *)
Definition new_RegExp `{RegExpEngine} (pattern : string)
    (fl : RegExpFlags) : Eval RegExp :=
  λ next,
    if SyntaxOk pattern fl
    then Normal ({| re_id := next; source := pattern; flags := fl |}, S next)
    else Throw SyntaxError.

(** [rules.map(f)], left to right. *)
Fixpoint map_array {A B : Type} (f : A → Eval B) (l : list A) : Eval (list B) :=
  match l with
  | [] => ret []
  | a :: rest =>
      let* b := f a in
      let* bs := map_array f rest in
      ret (b :: bs)
  end.

Section Loader.
Context `{RegExpEngine}.

Definition convertMatch (m : jsval) : Eval jsval :=
  match m with
  | JString s =>
      if startsWith s "^" || includes s "|"
      then let* re := new_RegExp s flags_i in ret (JRegExp re)
      else ret m
  | _ => ret m
  end.

(** [{ ...rule, match: convertMatch(rule.match) }]; a rule without a
    [match] property reads [undefined]. *)
Definition convertRule (r : rule_object) : Eval rule_object :=
  let* m := convertMatch (default JUndefined (r !! "match")) in
  ret (<["match" := m]> r).

(** One [if (parsed.xRules) result.xRules = parsed.xRules.map(...)]. *)
Definition convertRules (rules : option (list rule_object))
    : Eval (option (list rule_object)) :=
  match rules with
  | Some l => let* l' := map_array convertRule l in ret (Some l')
  | None => ret None
  end.

(** [parseJsonConfig], from the value [JSON.parse(content)] returned. *)
Definition parseJsonConfig (parsed : VeilConfig) : Eval VeilConfig :=
  let* f := convertRules (fileRules parsed) in
  let* e := convertRules (envRules parsed) in
  let* c := convertRules (cliRules parsed) in
  ret {| fileRules := f; envRules := e; cliRules := c |}.

(** The heuristic of [convertMatch]. *)
Definition regex_like (s : string) : bool :=
  startsWith s "^" || includes s "|".

(** The rule's pattern, when the heuristic selects it, is a source that
    [new RegExp(_, "i")] compiles. *)
Definition compilable (r : rule_object) : Prop :=
  ∀ s, r !! "match" = Some (JString s) → regex_like s = true →
       SyntaxOk s flags_i = true.

Definition all_rules (cfg : VeilConfig) : list rule_object :=
  default [] (fileRules cfg) ++ default [] (envRules cfg)
  ++ default [] (cliRules cfg).

(** What the loader is to make of one rule: every property but [match]
    is kept; a selected string becomes a case-insensitive expression with
    that string as its source; any other [match] is kept. *)
Definition converted (r r' : rule_object) : Prop :=
  (∀ k, k ≠ "match" → r' !! k = r !! k) ∧
  match default JUndefined (r !! "match") with
  | JString s =>
      if regex_like s
      then ∃ re, r' !! "match" = Some (JRegExp re) ∧
                 source re = s ∧ flags re = flags_i
      else r' !! "match" = Some (JString s)
  | m => r' !! "match" = Some m
  end.

(** An absent array stays absent; a present one is converted rule by
    rule, in order. *)
Definition arrays_converted (a a' : option (list rule_object)) : Prop :=
  match a, a' with
  | Some l, Some l' => Forall2 converted l l'
  | None, None => True
  | _, _ => False
  end.

End Loader.
End WrapUtils.

(** ** Rule packs *)
Module Categories.
Import JS.

Inductive RuleSeverity : Type := error | warn | off.

(** [RuleConfig]: a severity, alone or paired with an options object. *)
Inductive RuleConfig : Type :=
| Severity (s : RuleSeverity)
| WithOptions (s : RuleSeverity) (options : gmap string string).

(** [RulesConfig]: a plain object from rule id to [RuleConfig]. *)
Abbreviation RulesConfig := (gmap string RuleConfig).

Record RulePack : Type := mkRulePack {
  name : string;
  description : string;
  rules : list string
}.

(** The own properties of the [RULE_PACKS] object literal. *)
Definition RULE_PACKS : list (string * RulePack) := [
  ("security:recommended",
   {| name := "Security Recommended";
      description := "Essential security rules for any project";
      rules := [
        "env/mask-aws"; "env/mask-azure"; "env/mask-gcp"; "env/deny-passwords";
        "env/mask-tokens"; "env/mask-secrets"; "env/deny-database-urls";
        "fs/hide-env-files"; "fs/hide-private-keys";
        "cli/no-curl-pipe-bash"; "cli/no-credential-echo" ] |});
  ("security:strict",
   {| name := "Security Strict";
      description := "Maximum security - blocks more aggressively";
      rules := [
        "env/mask-aws"; "env/mask-azure"; "env/mask-gcp"; "env/deny-passwords";
        "env/mask-tokens"; "env/mask-secrets"; "env/deny-database-urls";
        "fs/hide-env-files"; "fs/hide-private-keys"; "fs/hide-docker-config";
        "fs/hide-npm-config"; "fs/hide-git-credentials";
        "cli/no-curl-pipe-bash"; "cli/no-wget-pipe-bash";
        "cli/no-credential-echo"; "cli/no-curl-with-password" ] |});
  ("platform:windows",
   {| name := "Windows";
      description := "Windows-specific protections";
      rules := [
        "win/no-delete-system32"; "win/no-delete-windows";
        "win/no-delete-program-files"; "win/no-format-drive";
        "win/no-delete-above-cwd"; "win/no-modify-registry";
        "win/hide-ntuser"; "win/hide-sam"; "win/hide-credential-manager" ] |});
  ("platform:darwin",
   {| name := "macOS";
      description := "macOS-specific protections";
      rules := [
        "darwin/no-delete-system"; "darwin/no-delete-library";
        "darwin/no-delete-applications"; "darwin/no-delete-above-cwd";
        "darwin/hide-keychain"; "darwin/no-security-dump";
        "darwin/hide-ssh"; "darwin/no-disable-sip" ] |});
  ("platform:linux",
   {| name := "Linux";
      description := "Linux-specific protections";
      rules := [
        "linux/no-delete-root"; "linux/no-delete-boot"; "linux/no-delete-etc";
        "linux/no-delete-var"; "linux/no-delete-above-cwd";
        "linux/no-delete-home-recursive"; "linux/no-dd-to-disk";
        "linux/no-mkfs"; "linux/hide-shadow"; "linux/hide-ssh";
        "linux/hide-gnupg"; "linux/no-fork-bomb";
        "linux/no-chmod-777-recursive" ] |});
  ("context:dev",
   {| name := "Development";
      description := "Rules for local development";
      rules := [
        "fs/hide-node-modules"; "fs/hide-vcs"; "fs/hide-build-output";
        "fs/hide-env-files"; "fs/hide-private-keys";
        "env/mask-tokens"; "env/mask-secrets" ] |});
  ("context:ci",
   {| name := "CI/CD";
      description := "Rules for CI/CD pipelines";
      rules := [
        "env/mask-aws"; "env/mask-azure"; "env/mask-gcp"; "env/deny-passwords";
        "env/mask-tokens"; "fs/hide-private-keys"; "cli/no-curl-pipe-bash" ] |});
  ("context:production",
   {| name := "Production";
      description := "Maximum protection for production environments";
      rules := [
        "env/mask-aws"; "env/mask-azure"; "env/mask-gcp"; "env/deny-passwords";
        "env/mask-tokens"; "env/mask-secrets"; "env/deny-database-urls";
        "fs/hide-env-files"; "fs/hide-private-keys"; "fs/hide-docker-config";
        "cli/no-curl-pipe-bash"; "cli/no-credential-echo";
        "cli/no-curl-with-password" ] |});
  ("minimal",
   {| name := "Minimal";
      description := "Just the essentials";
      rules := [ "fs/hide-env-files"; "env/deny-passwords"; "env/mask-tokens" ] |})
].

(** The properties every plain object inherits from [Object.prototype]. *)
Definition Object_prototype_properties : list string := [
  "constructor"; "__defineGetter__"; "__defineSetter__"; "hasOwnProperty";
  "__lookupGetter__"; "__lookupSetter__"; "isPrototypeOf";
  "propertyIsEnumerable"; "toString"; "valueOf"; "__proto__";
  "toLocaleString" ].

(** What [RULE_PACKS[packName]] evaluates to: an own property holds a
    pack; a name found on the prototype holds one of its members, an
    object or function without a [rules] property; any other name reads
    [undefined]. *)
Inductive PackLookup : Type :=
| OwnPack (pack : RulePack)
| PrototypeMember
| Undefined.

Fixpoint own_property (packs : list (string * RulePack)) (key : string)
    : option RulePack :=
  match packs with
  | [] => None
  | (k, p) :: rest => if String.eqb k key then Some p else own_property rest key
  end.

Definition RULE_PACKS_get (packName : string) : PackLookup :=
  match own_property RULE_PACKS packName with
  | Some pack => OwnPack pack
  | None =>
      if bool_decide (packName ∈ Object_prototype_properties)
      then PrototypeMember else Undefined
  end.

(** The inner loop: [config[ruleId] = "error"] for every id of the pack.
    The assignment creates or overwrites an own property for every key but
    [__proto__], which no pack lists. *)
Definition set_rules (config : RulesConfig) (ruleIds : list string) : RulesConfig :=
  foldl (λ cfg ruleId, <[ruleId := Severity error]> cfg) config ruleIds.

(** The outer loop of [fromPacks], with the configuration built so far and
    the lines written by [console.warn]. A prototype member is truthy, so
    it passes the [!pack] test, and iterating its missing [rules] throws. *)
Fixpoint fromPacks_loop (packNames : list string) (config : RulesConfig)
    (warnings : list string) : completion RulesConfig * list string :=
  match packNames with
  | [] => (Normal config, warnings)
  | packName :: rest =>
      match RULE_PACKS_get packName with
      | Undefined =>
          fromPacks_loop rest config
            (warnings ++ ["Unknown rule pack: " +:+ packName])
      | OwnPack pack => fromPacks_loop rest (set_rules config (rules pack)) warnings
      | PrototypeMember => (Throw TypeError, warnings)
      end
  end.

Definition fromPacks (packNames : list string)
    : completion RulesConfig * list string :=
  fromPacks_loop packNames ∅ [].

(** A name that is an own property of [RULE_PACKS]. *)
Definition known_pack (packName : string) : Prop :=
  is_Some (own_property RULE_PACKS packName).

(** The rule ids a name contributes: those of its pack, none for a name
    that is not a pack. *)
Definition pack_rules (packName : string) : list string :=
  match own_property RULE_PACKS packName with
  | Some pack => rules pack
  | None => []
  end.

(** The lines [console.warn] receives for the names that read
    [undefined]. *)
Definition unknown_warnings (packNames : list string) : list string :=
  omap (λ packName,
          match RULE_PACKS_get packName with
          | Undefined => Some ("Unknown rule pack: " +:+ packName)
          | _ => None
          end) packNames.

(** [listPacks]: the keys of [RULE_PACKS]. *)
Definition listPacks : list string := RULE_PACKS.*1.

End Categories.

(** ** Merging configurations *)
Module Presets.
Import JS Matching.

Record Injectors : Type := mkInjectors {
  files : option (string → option string);
  env : option (string → option string);
  directories : option (string → option (list string))
}.

Record VeilConfig : Type := mkVeilConfig {
  fileRules : option (list FileRule);
  envRules : option (list EnvRule);
  cliRules : option (list CliRule);
  injectors : option Injectors
}.

Definition later {A : Type} (a b : option A) : option A :=
  match b with
  | Some _ => b
  | None => a
  end.

Definition merge_injectors (a b : option Injectors) : option Injectors :=
  match a, b with
  | Some x, Some y =>
      Some {| files := later (files x) (files y);
              env := later (env x) (env y);
              directories := later (directories x) (directories y) |}
  | None, _ => b
  | _, None => a
  end.

(** An optional rule array, read as empty when absent. *)
Definition rulesOf {A : Type} (a : option (list A)) : list A := default [] a.

(** Modelled from the spec: [mergeConfigs] of the presets module, which is
    not among the sources (only its tests and callers are). It concatenates
    each kind's rule arrays across all inputs in argument order, an absent
    array counting as empty, and merges the injector hooks shallowly, a
    later configuration's hook overriding an earlier one's. *)
Definition mergeConfigs (configs : list VeilConfig) : VeilConfig :=
  {| fileRules := Some (concat (map (λ c, rulesOf (fileRules c)) configs));
     envRules := Some (concat (map (λ c, rulesOf (envRules c)) configs));
     cliRules := Some (concat (map (λ c, rulesOf (cliRules c)) configs));
     injectors := foldl merge_injectors None (map injectors configs) |}.

End Presets.

(** ** More of the string built-ins *)
Module JSString.
Import JS.

(** The line feed and the double quote, as one-character strings. *)
Definition nl : string := String (ascii_of_nat 10) EmptyString.
Definition dquote : string := String (ascii_of_nat 34) EmptyString.

(** [s.slice(i)] for an index [i] that is not negative. *)
Fixpoint slice_from (s : string) (i : nat) {struct i} : string :=
  match i, s with
  | O, _ => s
  | S i', String _ s' => slice_from s' i'
  | S _, EmptyString => EmptyString
  end.

(** [s.slice(0, i)] for an index [i] that is not negative. *)
Fixpoint slice_to (s : string) (i : nat) {struct i} : string :=
  match i, s with
  | S i', String c s' => String c (slice_to s' i')
  | _, _ => EmptyString
  end.

(** [s.endsWith(p)]: the last [p.length] characters of [s] are [p]. A
    [p] longer than [s] is compared with the whole of [s] and differs. *)
Definition endsWith (s p : string) : bool :=
  String.eqb (slice_from s (String.length s - String.length p)) p.

(** [s.indexOf(p)]: the first index at which [p] occurs; [None] stands
    for the result -1. *)
Fixpoint indexOf (s p : string) : option nat :=
  if startsWith s p then Some 0
  else match s with
       | EmptyString => None
       | String _ s' => S <$> indexOf s' p
       end.

(** White space and line terminators among the code units below 256:
    tab, line feed, vertical tab, form feed, carriage return, space and
    the no-break space. *)
Definition is_whitespace (c : ascii) : bool :=
  let n := nat_of_ascii c in
  ((9 <=? n)%nat && (n <=? 13)%nat) || (n =? 32)%nat || (n =? 160)%nat.

(** [s.trimStart()]. *)
Fixpoint trimStart (s : string) : string :=
  match s with
  | EmptyString => EmptyString
  | String c s' => if is_whitespace c then trimStart s' else s
  end.

(** [s.trimEnd()]. *)
Fixpoint trimEnd (s : string) : string :=
  match s with
  | EmptyString => EmptyString
  | String c s' =>
      match trimEnd s' with
      | EmptyString => if is_whitespace c then EmptyString else String c EmptyString
      | t => String c t
      end
  end.

(** Truthiness of a string: it is not empty. *)
Definition truthy (s : string) : bool :=
  match s with
  | EmptyString => false
  | String _ _ => true
  end.

(** [l.join(sep)]. *)
Definition join (sep : string) (l : list string) : string := String.concat sep l.

(** The character [x] occurs in [s]. *)
Fixpoint has_char (x : ascii) (s : string) : bool :=
  match s with
  | EmptyString => false
  | String c s' => Ascii.eqb x c || has_char x s'
  end.

End JSString.

(** ** Shell wrapper utilities *)
Module ShellUtils.
Import JS JSString.

Definition SHELL_MARKER_START : string := "# >>> veil shell wrapper >>>".
Definition SHELL_MARKER_END : string := "# <<< veil shell wrapper <<<".
Definition PS_SHELL_MARKER_START : string := "# >>> veil shell wrapper >>>".
Definition PS_SHELL_MARKER_END : string := "# <<< veil shell wrapper <<<".

Inductive ShellType : Type := zsh | bash | powershell | unknown.

Definition detectShellFromPath (path : string) : ShellType :=
  if endsWith path ".ps1" then powershell
  else if includes path ".bashrc" || includes path ".bash_profile" then bash
  else if includes path ".zshrc" then zsh
  else unknown.

(** [env[key]] read for its truthiness: set and not empty. *)
Definition env_truthy (env : gmap string string) (key : string) : bool :=
  match env !! key with
  | Some v => truthy v
  | None => false
  end.

Definition detectCurrentShell (env : gmap string string)
    (platform : string) : ShellType :=
  if env_truthy env "PSModulePath"
     || env_truthy env "POWERSHELL_DISTRIBUTION_CHANNEL"
  then powershell
  else
    let shell := default EmptyString (env !! "SHELL") in
    if includes shell "zsh" then zsh
    else if includes shell "bash" then bash
    else if String.eqb platform "win32" then powershell
    else unknown.

(** The template of one bash function. *)
Definition bash_function (cmd : string) : string :=
  cmd +:+ "() {" +:+ nl
  +:+ "  if command -v veil-wrap >/dev/null 2>&1; then" +:+ nl
  +:+ "    veil-wrap " +:+ cmd +:+ " " +:+ dquote +:+ "$@" +:+ dquote +:+ nl
  +:+ "  else" +:+ nl
  +:+ "    command " +:+ cmd +:+ " " +:+ dquote +:+ "$@" +:+ dquote +:+ nl
  +:+ "  fi" +:+ nl
  +:+ "}".

(** The template of one PowerShell function. *)
Definition powershell_function (cmd : string) : string :=
  "function " +:+ cmd +:+ " {" +:+ nl
  +:+ "  if (Get-Command veil-wrap -ErrorAction SilentlyContinue) {" +:+ nl
  +:+ "    veil-wrap " +:+ cmd +:+ " @args" +:+ nl
  +:+ "  } else {" +:+ nl
  +:+ "    & (Get-Command " +:+ cmd
  +:+ " -CommandType Application -ErrorAction SilentlyContinue | Select-Object -First 1) @args"
  +:+ nl
  +:+ "  }" +:+ nl
  +:+ "}".

Definition modeComment (forceMode : bool) : string :=
  if forceMode
  then "# Mode: FORCE - applies to ALL terminals (humans + AI)"
  else "# Mode: AI-only - only activates when VEIL_ENABLED=1 (set in VS Code)".

(** The text between the two markers, common to both wrappers. *)
Definition wrapper_text (markerStart markerEnd : string) (forceMode : bool)
    (wrapperFunctions : string) : string :=
  markerStart +:+ nl
  +:+ "# Veil intercepts these commands to enforce security policies" +:+ nl
  +:+ "# See: https://github.com/Squad-Zero/veil" +:+ nl
  +:+ modeComment forceMode +:+ nl
  +:+ wrapperFunctions +:+ nl
  +:+ markerEnd.

Definition getBashWrapper (commands : list string) (forceMode : bool) : string :=
  let wrapperFunctions := join (nl +:+ nl) (map bash_function commands) in
  wrapper_text SHELL_MARKER_START SHELL_MARKER_END forceMode wrapperFunctions.

Definition getPowerShellWrapper (commands : list string)
    (forceMode : bool) : string :=
  let wrapperFunctions := join (nl +:+ nl) (map powershell_function commands) in
  wrapper_text PS_SHELL_MARKER_START PS_SHELL_MARKER_END forceMode
    wrapperFunctions.

Definition getShellWrapper (commands : list string) (forceMode : bool)
    (shellType : ShellType) : string :=
  match shellType with
  | powershell => getPowerShellWrapper commands forceMode
  | _ => getBashWrapper commands forceMode
  end.

(** [env["HOME"] ?? env["USERPROFILE"] ?? ""]: only an unset variable
    falls through, an empty one does not. *)
Definition getShellConfigPaths (env : gmap string string)
    (platform : string) : list string :=
  let home :=
    match env !! "HOME" with
    | Some h => h
    | None => default EmptyString (env !! "USERPROFILE")
    end in
  let paths :=
    [ home +:+ "/.zshrc"; home +:+ "/.bashrc"; home +:+ "/.bash_profile" ] in
  if String.eqb platform "win32" then
    let userProfile := default EmptyString (env !! "USERPROFILE") in
    paths ++
    [ userProfile +:+ "/Documents/PowerShell/Microsoft.PowerShell_profile.ps1";
      userProfile
      +:+ "/Documents/WindowsPowerShell/Microsoft.PowerShell_profile.ps1" ]
  else paths.

Record Removal : Type := mkRemoval {
  modified : string;
  found : bool
}.

Definition removeWrapperFromContent (content : string) : Removal :=
  if negb (includes content SHELL_MARKER_START)
     && negb (includes content PS_SHELL_MARKER_START)
  then {| modified := content; found := false |}
  else
    let markerStart :=
      if includes content SHELL_MARKER_START
      then SHELL_MARKER_START else PS_SHELL_MARKER_START in
    let markerEnd :=
      if includes content SHELL_MARKER_END
      then SHELL_MARKER_END else PS_SHELL_MARKER_END in
    match indexOf content markerStart, indexOf content markerEnd with
    | Some startIdx, Some endIdx =>
        let before := trimEnd (slice_to content startIdx) in
        let after :=
          trimStart (slice_from content (endIdx + String.length markerEnd)) in
        {| modified :=
             before +:+ (if truthy after then nl +:+ nl +:+ after else nl);
           found := true |}
    | _, _ => {| modified := content; found := false |}
    end.

Definition hasWrapperInstalled (content : string) : bool :=
  includes content SHELL_MARKER_START || includes content PS_SHELL_MARKER_START.

Definition addWrapperToContent (content wrapper : string) : string :=
  trimEnd content +:+ nl +:+ nl +:+ wrapper +:+ nl.

End ShellUtils.

(** ** Vocabulary for the loader's results *)
Module WrapUtilsVocabulary.
Import JS WrapUtils.

(** The [RegExp] object a rule has as its [match], if it has one. *)
Definition match_regexp (r : rule_object) : option RegExp :=
  match r !! "match" with
  | Some (JRegExp re) => Some re
  | _ => None
  end.

(** The [RegExp] objects of a rule list, in rule order. *)
Definition regexps (rules : list rule_object) : list RegExp :=
  omap match_regexp rules.


(** The [RegExp] objects of [rules] are numbered [next], [next + 1], ...
    up to [next'], in rule order, and each has the flag [i] alone. *)
Definition numbered_from (next next' : nat) (rules : list rule_object) : Prop :=
  map re_id (regexps rules) = seq next (next' - next) ∧ (next <= next')%nat ∧
  Forall (λ re, flags re = flags_i) (regexps rules).

End WrapUtilsVocabulary.

(** ** The rule system's types and the helpers over packs and categories *)
Module CategoryHelpers.
Import JS Matching Categories.

Inductive Platform : Type := windows | darwin | linux | all.

Inductive RuleCategory : Type :=
| security | privacy | filesystem | credentials | destructive | network
| system.

(** The string a category is at run time. *)
Definition category_name (c : RuleCategory) : string :=
  match c with
  | security => "security"
  | privacy => "privacy"
  | filesystem => "filesystem"
  | credentials => "credentials"
  | destructive => "destructive"
  | network => "network"
  | system => "system"
  end.

(** [VeilRule]: a named rule definition. *)
Record VeilRule : Type := mkVeilRule {
  id : string;
  description : string;
  category : RuleCategory;
  platforms : list Platform;
  defaultSeverity : RuleSeverity;
  fileRules : option (list FileRule);
  envRules : option (list EnvRule);
  cliRules : option (list CliRule)
}.

(** [config[key] = value] on a plain object: every key becomes an own
    property but [__proto__], whose inherited setter ignores a value that
    is not an object. *)
Definition object_set (config : RulesConfig) (key : string)
    (value : RuleConfig) : RulesConfig :=
  if String.eqb key "__proto__" then config else <[key := value]> config.

(** [fromCategory(category, severity = "error")], over the rules
    [getAllRules()] returns, here the argument [registry]; an omitted
    severity is [None]. *)
Definition fromCategory (registry : list VeilRule) (category : string)
    (severity : option RuleSeverity) : RulesConfig :=
  let severity := default error severity in
  foldl (λ config rule,
           if String.eqb (category_name (CategoryHelpers.category rule)) category
           then object_set config (id rule) (Severity severity)
           else config)
        ∅ registry.

(** [listRules()], over the same registry. *)
Definition listRules (registry : list VeilRule) : list string :=
  map id registry.

(** The [switch] on [process.platform] that [recommended] and [strict]
    share: the pack pushed last. *)
Definition platform_pack (platform : string) : string :=
  if String.eqb platform "win32" then "platform:windows"
  else if String.eqb platform "darwin" then "platform:darwin"
  else "platform:linux".

(** [recommended()], with [process.platform] as argument. *)
Definition recommended (platform : string)
    : completion RulesConfig * list string :=
  let packs := ["security:recommended"; "context:dev"] in
  let packs := (packs ++ [platform_pack platform])%list in
  fromPacks packs.

(** [strict()], with [process.platform] as argument. *)
Definition strict (platform : string)
    : completion RulesConfig * list string :=
  let packs := ["security:strict"; "context:production"] in
  let packs := (packs ++ [platform_pack platform])%list in
  fromPacks packs.

End CategoryHelpers.

(** ** Discovery of the configuration file

    [findConfigDir] and [getConfigFilePath] use [dirname] and [join] of
    [node:path] and [existsSync] of [node:fs]. They are parameters here;
    the file system is read only, and one snapshot of it serves every
    call. *)
Module ConfigDiscovery.

Class Host : Type := {
  dirname : string → string;
  join : string → string → string;
  existsSync : string → bool
}.

Definition CONFIG_FILENAME : string := ".veilrc.json".

Inductive ConfigType : Type := json | js.

Record ConfigInfo : Type := mkConfigInfo {
  path : string;
  type : ConfigType
}.

Section Discovery.
Context `{Host}.

Definition configFiles : list string :=
  [CONFIG_FILENAME; "veil.config.ts"; "veil.config.js"; "veil.config.mjs"].

(** The inner [for] loop of [findConfigDir]: some file of [configFiles]
    exists in [dir]. *)
Definition has_config (dir : string) : bool :=
  existsb (λ configFile, existsSync (join dir configFile)) configFiles.

(** [findConfigDir], with the number of iterations its [while] loop may
    take: [None] when the loop is still running after [fuel] iterations,
    [Some None] for [null]. *)
Fixpoint findConfigDir (fuel : nat) (dir : string) : option (option string) :=
  match fuel with
  | O => None
  | S fuel' =>
      if negb (String.eqb dir (dirname dir)) then
        if has_config dir then Some (Some dir)
        else findConfigDir fuel' (dirname dir)
      else Some None
  end.

Definition jsConfigs : list string :=
  ["veil.config.js"; "veil.config.mjs"; "veil.config.ts"].

Fixpoint first_js_config (configDir : string) (files : list string)
    : option ConfigInfo :=
  match files with
  | [] => None
  | configFile :: rest =>
      let fullPath := join configDir configFile in
      if existsSync fullPath then Some {| path := fullPath; type := js |}
      else first_js_config configDir rest
  end.

Definition getConfigFilePath (configDir : string) : option ConfigInfo :=
  let jsonPath := join configDir CONFIG_FILENAME in
  if existsSync jsonPath then Some {| path := jsonPath; type := json |}
  else first_js_config configDir jsConfigs.

(** The first [n] directories the loop of [findConfigDir] goes through
    from [dir]: [dir], its parent, its grandparent, ... *)
Fixpoint ancestors (n : nat) (dir : string) : list string :=
  match n with
  | O => []
  | S n' => dir :: ancestors n' (dirname dir)
  end.

End Discovery.

End ConfigDiscovery.

(** ** A reference host for closed examples

    [dirname] and [join] on absolute POSIX paths without a trailing slash,
    and a file system given by the list of the paths that exist. *)
Module Posix.
Import JS.

(** [s] without its last [/] and what follows it; [None] when [s] has no
    [/]. *)
Fixpoint drop_last_segment (s : string) : option string :=
  match s with
  | EmptyString => None
  | String c s' =>
      match drop_last_segment s' with
      | Some r => Some (String c r)
      | None => if Ascii.eqb c "/" then Some EmptyString else None
      end
  end.

Definition dirname (p : string) : string :=
  match drop_last_segment p with
  | None => "."
  | Some EmptyString => "/"
  | Some r => r
  end.

Definition join (dir file : string) : string :=
  if String.eqb dir "/" then "/" +:+ file else dir +:+ "/" +:+ file.

Definition host (files : list string) : ConfigDiscovery.Host :=
  {| ConfigDiscovery.dirname := dirname;
     ConfigDiscovery.join := join;
     ConfigDiscovery.existsSync :=
       λ p, existsb (String.eqb p) files |}.

End Posix.

(** ** Concrete inputs used in the closed examples *)
Module Examples.
Import JS Matching.

(** [/a/g] *)
Definition re_a_global : RegExp :=
  {| re_id := 0; source := "a";
     flags := {| global := true; ignoreCase := false;
                 multiline := false; sticky := false |} |}.

(** [[{ match: /a/g, action: "deny" }]] *)
Definition global_rules : list FileRule :=
  [ {| file_match := PRegExp re_a_global; file_action := deny;
       file_reason := None |} ].

(** [/^AWS_/] *)
Definition re_aws : RegExp :=
  {| re_id := 1; source := "^AWS_";
     flags := {| global := false; ignoreCase := false;
                 multiline := false; sticky := false |} |}.

(** [[{ match: "node_modules", action: "deny" }, { match: /^AWS_/,
    action: "deny" }]] *)
Definition plain_rules : list FileRule :=
  [ {| file_match := PString "node_modules"; file_action := deny;
       file_reason := None |};
    {| file_match := PRegExp re_aws; file_action := deny;
       file_reason := None |} ].

(** [[{ match: "a", action: "allow" }, { match: "b", action: "allow" },
    { match: "c", action: "deny" }]] *)
Definition three_file_rules : list FileRule :=
  [ {| file_match := PString "a"; file_action := allow; file_reason := None |};
    {| file_match := PString "b"; file_action := allow; file_reason := None |};
    {| file_match := PString "c"; file_action := deny; file_reason := None |} ].

(** [{ "fileRules": [{ "match": "^(", "action": "deny" }] }] *)
Definition unterminated_group_config : WrapUtils.VeilConfig :=
  {| WrapUtils.fileRules :=
       Some [ {[ "match" := WrapUtils.JString "^(";
                 "action" := WrapUtils.JString "deny" ]} ];
     WrapUtils.envRules := None;
     WrapUtils.cliRules := None |}.

(** [{ "fileRules": [{ "match": "^secrets/", "action": "deny" }],
       "envRules": [{ "match": "API_KEY|SECRET", "action": "mask" }],
       "cliRules": [{ "match": "rm -rf", "action": "deny",
                      "reason": "no" }] }] *)
Definition sample_config : WrapUtils.VeilConfig :=
  {| WrapUtils.fileRules :=
       Some [ {[ "match" := WrapUtils.JString "^secrets/";
                 "action" := WrapUtils.JString "deny" ]} ];
     WrapUtils.envRules :=
       Some [ {[ "match" := WrapUtils.JString "API_KEY|SECRET";
                 "action" := WrapUtils.JString "mask" ]} ];
     WrapUtils.cliRules :=
       Some [ {[ "match" := WrapUtils.JString "rm -rf";
                 "action" := WrapUtils.JString "deny";
                 "reason" := WrapUtils.JString "no" ]} ] |}.

End Examples.

(** * Properties *)

(** ** Strings *)
Module JSFacts.
Import JS.

Lemma append_cons (c : ascii) (s t : string) :
  String c s +:+ t = String c (s +:+ t).
Proof. reflexivity. Qed.

Lemma append_empty (t : string) : EmptyString +:+ t = t.
Proof. reflexivity. Qed.

Lemma startsWith_spec (s p : string) :
  startsWith s p = true ↔ ∃ post, s = p +:+ post.
Proof.
  revert s. induction p as [|a p IH]; intros s; simpl.
  - split; [intros _; by exists s | done].
  - setoid_rewrite append_cons. destruct s as [|b s].
    + split; [done | intros [post Hpost]; discriminate].
    + destruct (Ascii.eqb_spec a b) as [->|Hne].
      * rewrite IH. split; intros [post Hpost]; exists post; congruence.
      * split; [done | intros [post Hpost]; congruence].
Qed.

Lemma includes_spec (s p : string) :
  includes s p = true ↔ ∃ pre post, s = pre +:+ p +:+ post.
Proof.
  induction s as [|b s IH]; simpl.
  - rewrite orb_false_r, startsWith_spec. split.
    + intros [post Hpost]. by exists EmptyString, post.
    + intros (pre & post & Heq). destruct pre; [by exists post | discriminate].
  - rewrite orb_true_iff, IH, startsWith_spec. split.
    + intros [[post Hpost] | (pre & post & Heq)].
      * by exists EmptyString, post.
      * exists (String b pre), post. by rewrite append_cons, Heq.
    + intros (pre & post & Heq). destruct pre as [|c pre].
      * left. by exists post.
      * right. exists pre, post. rewrite append_cons in Heq. congruence.
Qed.

Lemma length_repeat_char (c : ascii) (n : nat) :
  String.length (repeat_char c n) = n.
Proof. induction n; simpl; congruence. Qed.

End JSFacts.

(** ** Pattern matching and rule evaluation *)
Module MatchingFacts.
Import JS Matching JSFacts.

Section Evaluate.
Context `{RegExpEngine} {T : Type} `{BaseRule T}.
Implicit Types (target : string) (rules : list T) (σ : store).

(** A stateless pattern is tested without reading or writing the store. *)
Lemma matchesPattern_stateless target p σ σ0 :
  stateless_pattern p = true →
  matchesPattern target p σ = ((matchesPattern target p σ0).1, σ).
Proof.
  destruct p as [s|re]; simpl; [done|].
  intros Hst%negb_true_iff.
  unfold RegExp_test, RegExpBuiltinExec. rewrite Hst.
  by destruct (first_match _ _).
Qed.

Lemma findMatchingRule_from_stateless i target rules σ σ0 :
  stateless_rules rules →
  findMatchingRule_from i target rules σ
  = ((findMatchingRule_from i target rules σ0).1, σ).
Proof.
  intros Hst. revert i σ σ0.
  induction Hst as [|r rest Hr _ IH]; intros i σ σ0; simpl; [done|].
  rewrite (matchesPattern_stateless target _ σ σ0 Hr).
  destruct (matchesPattern target (rule_match r) σ0) as [[] σ0']; simpl;
    [done | apply IH].
Qed.

Lemma evaluateRules_stateless target rules σ σ0 :
  stateless_rules rules →
  evaluateRules target rules σ = ((evaluateRules target rules σ0).1, σ).
Proof.
  intros Hst. unfold evaluateRules, findMatchingRule.
  rewrite (findMatchingRule_from_stateless 0 target rules σ σ0 Hst).
  by destruct (findMatchingRule_from 0 target rules σ0) as [[[r i]|] σ0'].
Qed.

Lemma matches_at_head target r rest σ :
  matches_at target (r :: rest) σ 0
  ↔ (matchesPattern target (rule_match r) σ).1 = true.
Proof.
  unfold matches_at. simpl. split.
  - by intros (r' & [= <-] & Hm).
  - intros Hm. by exists r.
Qed.

Lemma matches_at_tail target r rest σ j :
  matches_at target (r :: rest) σ (S j)
  ↔ matches_at target rest (matchesPattern target (rule_match r) σ).2 j.
Proof. reflexivity. Qed.

Lemma findMatchingRule_from_lowest i target rules σ :
  match (findMatchingRule_from i target rules σ).1 with
  | Some (r, k) =>
      ∃ j, k = i + j ∧ rules !! j = Some r ∧ matches_at target rules σ j ∧
           ∀ j', j' < j → ¬ matches_at target rules σ j'
  | None => ∀ j, ¬ matches_at target rules σ j
  end.
Proof.
  revert i σ. induction rules as [|r rest IH]; intros i σ; simpl.
  - intros j (r & Hr & _). by rewrite lookup_nil in Hr.
  - pose proof (matches_at_head target r rest σ) as Hhead.
    destruct (matchesPattern target (rule_match r) σ) as [b σ'] eqn:Hm.
    simpl in Hhead. destruct b; simpl.
    + exists 0. split_and!; [lia | done | by apply Hhead | lia].
    + specialize (IH (S i) σ').
      pose proof (λ j, matches_at_tail target r rest σ j) as Htail.
      rewrite Hm in Htail. simpl in Htail.
      destruct (findMatchingRule_from (S i) target rest σ').1 as [[r' k]|].
      * destruct IH as (j & -> & Hj & Hat & Hlow).
        exists (S j). split_and!; [lia | done | by apply Htail |].
        intros [|j'] Hlt; [rewrite Hhead; congruence|].
        rewrite Htail. apply Hlow. lia.
      * intros [|j]; [rewrite Hhead; congruence|]. rewrite Htail. apply IH.
Qed.

(** C1. For every rule list and target, [findMatchingRule] returns the
    rule at the lowest zero-based index whose pattern the target matches
    when the scan reaches it, paired with that index; when no rule matches
    it returns nothing. *)
Theorem findMatchingRule_lowest_index target rules σ :
  match (findMatchingRule target rules σ).1 with
  | Some (r, i) =>
      rules !! i = Some r ∧ matches_at target rules σ i ∧
      ∀ j, j < i → ¬ matches_at target rules σ j
  | None => ∀ j, ¬ matches_at target rules σ j
  end.
Proof.
  unfold findMatchingRule.
  pose proof (findMatchingRule_from_lowest 0 target rules σ) as Hlow.
  destruct (findMatchingRule_from 0 target rules σ).1 as [[r k]|]; [|done].
  by destruct Hlow as (j & -> & Hj & Hat & Hmin).
Qed.

(** On stateless rules, matching at an index is matching the pattern:
    the store plays no part. *)
Lemma matches_at_stateless target rules σ j :
  stateless_rules rules →
  matches_at target rules σ j
  ↔ ∃ r, rules !! j = Some r ∧
         (matchesPattern target (rule_match r) ∅).1 = true.
Proof.
  intros Hst. unfold matches_at. split; intros (r & Hr & Hm); exists r;
    (split; [done|]);
    assert (stateless_pattern (rule_match r) = true) as Hp
      by (exact (Forall_lookup_1 _ rules j r Hst Hr)).
  - by rewrite (matchesPattern_stateless _ _ _ ∅ Hp) in Hm.
  - by rewrite (matchesPattern_stateless _ _ _ ∅ Hp).
Qed.

End Evaluate.

Section Patterns.
Context `{RegExpEngine}.

(** C2. A literal pattern matches exactly when the target equals it or
    contains it as a substring; a regular expression matches exactly when
    its [test] on the target is true; ["node_modules"] matches
    ["node_modules/pkg"] and does not match ["src/index.ts"]. *)
Theorem matchesPattern_correct (target : string) (σ : store) :
  (∀ pattern : string,
      (matchesPattern target (PString pattern) σ).1 = true
      ↔ target = pattern ∨ ∃ pre post, target = pre +:+ pattern +:+ post)
  ∧ (∀ re : RegExp,
      (matchesPattern target (PRegExp re) σ).1 = true
      ↔ (RegExp_test re target σ).1 = true)
  ∧ (matchesPattern "node_modules/pkg" (PString "node_modules") σ).1 = true
  ∧ (matchesPattern "src/index.ts" (PString "node_modules") σ).1 = false.
Proof.
  split_and!; [| done | done | done].
  intros pattern. simpl.
  by rewrite orb_true_iff, String.eqb_eq, includes_spec.
Qed.

(** The policy reference names ["cliRules"] for a rule with a
    [safeAlternatives] property and ["rules"] for every other rule. *)
Lemma evaluateRules_policyRef {T : Type} `{BaseRule T} (target : string)
    (rules : list T) (σ σ' : store) (ev : Evaluation T) :
  evaluateRules target rules σ = (Some ev, σ') →
  ∃ i, (findMatchingRule target rules σ).1 = Some (rule ev, i) ∧
       policyRef ev
       = (if has_safeAlternatives (rule ev) then "cliRules" else "rules")
         +:+ "[" +:+ number_to_string i +:+ "]".
Proof.
  unfold evaluateRules.
  destruct (findMatchingRule target rules σ) as [[[r i]|] σ1]; [|done].
  intros [= <- <-]. by exists i.
Qed.

(** C4. For a list of file rules the policy reference [evaluateRules]
    builds at index [i] is ["rules[i]"]; with the first match at index 2
    it is ["rules[2]"]. *)
Theorem evaluateRules_policyRef_file_rules (target : string)
    (rules : list FileRule) (σ : store) :
  match evaluateRules target rules σ with
  | (Some ev, _) =>
      ∃ i, (findMatchingRule target rules σ).1 = Some (rule ev, i) ∧
           policyRef ev = "rules[" +:+ number_to_string i +:+ "]"
  | (None, _) => (findMatchingRule target rules σ).1 = None
  end
  ∧ (evaluateRules "c" Examples.three_file_rules σ).1
    = Some {| action := deny;
              rule := {| file_match := PString "c"; file_action := deny;
                         file_reason := None |};
              policyRef := "rules[2]" |}.
Proof.
  split; [|reflexivity].
  destruct (evaluateRules target rules σ) as [[ev|] σ'] eqn:Hev.
  - destruct (evaluateRules_policyRef _ _ _ _ _ Hev) as (i & Hi & Href).
    exists i. split; [done|]. by rewrite Href.
  - unfold evaluateRules in Hev.
    by destruct (findMatchingRule target rules σ) as [[[r i]|] σ1].
Qed.

End Patterns.

Section Repeat.
Context `{RegExpEngine} {T : Type} `{BaseRule T}.

(** C8, amended. When no pattern of the rule list is a global or sticky
    regular expression, evaluating the same target twice yields the same
    outcome and leaves the store as it was. *)
Theorem evaluateRules_repeatable (target : string) (rules : list T) (σ : store) :
  stateless_rules rules →
  let '(res1, σ1) := evaluateRules target rules σ in
  let '(res2, σ2) := evaluateRules target rules σ1 in
  res1 = res2 ∧ σ1 = σ ∧ σ2 = σ.
Proof.
  intros Hst. rewrite (evaluateRules_stateless target rules σ σ Hst).
  by rewrite (evaluateRules_stateless target rules σ σ Hst).
Qed.

End Repeat.

Lemma evaluateRules_repeatable_witness :
  stateless_rules Examples.plain_rules ∧
  let '(res1, σ1) :=
    evaluateRules (H:=Fragment.engine) "AWS_KEY" Examples.plain_rules ∅ in
  let '(res2, σ2) :=
    evaluateRules (H:=Fragment.engine) "AWS_KEY" Examples.plain_rules σ1 in
  res1 = res2 ∧ σ1 = ∅ ∧ σ2 = ∅.
Proof.
  split; [by repeat constructor|].
  apply (evaluateRules_repeatable (H:=Fragment.engine) "AWS_KEY"
           Examples.plain_rules ∅).
  by repeat constructor.
Defined.

(** Any engine that finds ["a"] in ["a"] at index 0, ending at 1, and not
    at index 1, gives the two outcomes below. *)
Lemma evaluateRules_global_regexp_any_engine `{RegExpEngine} :
  Matcher "a" (flags Examples.re_a_global) "a" 0 = Some 1 →
  Matcher "a" (flags Examples.re_a_global) "a" 1 = None →
  (evaluateRules "a" Examples.global_rules ∅).1 ≠ None ∧
  (evaluateRules "a" Examples.global_rules
     (evaluateRules "a" Examples.global_rules ∅).2).1 = None.
Proof.
  intros Hhit Hmiss. cbn in Hhit, Hmiss.
  assert (RegExp_test Examples.re_a_global "a" ∅ = (true, {[ 0 := 1 ]})) as Hfirst.
  { unfold RegExp_test, RegExpBuiltinExec, lastIndex.
    rewrite lookup_empty. cbn -[Matcher]. by rewrite Hhit. }
  assert (RegExp_test Examples.re_a_global "a" {[ 0 := 1 ]}
          = (false, {[ 0 := 0 ]})) as Hsecond.
  { unfold RegExp_test, RegExpBuiltinExec, lastIndex.
    rewrite lookup_singleton_eq. cbn -[Matcher insert]. rewrite Hmiss.
    by rewrite insert_singleton_eq. }
  unfold evaluateRules, findMatchingRule, Examples.global_rules.
  cbn [findMatchingRule_from matchesPattern rule_match FileRule_BaseRule file_match].
  rewrite Hfirst. cbn [fst snd]. by rewrite Hsecond.
Qed.

(** C8 as stated fails on a global regular expression: the first
    evaluation of ["a"] against [/a/g] matches and moves [lastIndex] to 1,
    the second finds nothing from there. *)
Lemma evaluateRules_global_regexp_differs :
  evaluateRules (H:=Fragment.engine) "a" Examples.global_rules ∅
  = (Some {| action := deny;
             rule := {| file_match := PRegExp Examples.re_a_global;
                        file_action := deny; file_reason := None |};
             policyRef := "rules[0]" |}, {[ 0 := 1 ]})
  ∧ evaluateRules (H:=Fragment.engine) "a" Examples.global_rules {[ 0 := 1 ]}
    = (None, {[ 0 := 0 ]})
  ∧ ({[ 0 := 1 ]} : store) ≠ ∅.
Proof. split_and!; [reflexivity | reflexivity | done]. Qed.

(** ** Masking *)

Lemma get_last (init : string) (last : ascii) :
  String.get (String.length init) (init +:+ String last EmptyString) = Some last.
Proof. induction init as [|c init IH]; [done | by rewrite append_cons]. Qed.

Lemma length_snoc (init : string) (last : ascii) :
  String.length (init +:+ String last EmptyString) = S (String.length init).
Proof.
  induction init as [|c init IH]; [done|]. rewrite append_cons. simpl. by rewrite IH.
Qed.

Lemma string_snoc (s : string) :
  s ≠ EmptyString → ∃ init last, s = init +:+ String last EmptyString.
Proof.
  induction s as [|c s IH]; [done|]. intros _. destruct s as [|d s].
  - by exists EmptyString, c.
  - destruct IH as (init & last & Heq); [done|].
    exists (String c init), last. by rewrite append_cons, Heq.
Qed.

(** The default mask of a value with at least three interior characters. *)
Lemma applyMask_long (first last : ascii) (interior : string) :
  (3 ≤ String.length interior)%nat →
  applyMask (String first (interior +:+ String last EmptyString)) None
  = String first (repeat_char "*" (Nat.min (String.length interior) 8)
                  +:+ String last EmptyString).
Proof.
  intros Hlen. unfold applyMask. simpl String.length. rewrite length_snoc.
  destruct (Nat.leb_spec (S (S (String.length interior))) 4) as [Hle|_]; [lia|].
  unfold char_at_template.
  replace (S (S (String.length interior)) - 1) with (S (String.length interior)) by lia.
  replace (S (S (String.length interior)) - 2) with (String.length interior) by lia.
  simpl String.get. by rewrite get_last.
Qed.

(** C3. With a replacement the mask is the replacement; without one it is
    ["****"] for a value of length at most 4, and otherwise the first
    character, min(length - 2, 8) asterisks and the last character: the
    interior is 1 to 8 asterisks, and the interior characters of the value
    have no part in the result. *)
Theorem applyMask_correct (v : string) :
  (∀ r : string, applyMask v (Some r) = r)
  ∧ ((String.length v ≤ 4)%nat → applyMask v None = "****")
  ∧ (4 < String.length v →
     ∃ (first last : ascii) (interior : string),
       v = String first (interior +:+ String last EmptyString) ∧
       let n := Nat.min (String.length v - 2) 8 in
       applyMask v None
       = String first (repeat_char "*" n +:+ String last EmptyString) ∧
       (1 ≤ n ≤ 8)%nat ∧
       ∀ interior' : string,
         String.length interior' = String.length interior →
         applyMask (String first (interior' +:+ String last EmptyString)) None
         = applyMask v None).
Proof.
  split_and!; [done | |].
  - intros Hle. unfold applyMask.
    by destruct (Nat.leb_spec (String.length v) 4) as [_|Hgt]; [|lia].
  - intros Hgt. destruct v as [|first rest]; [simpl in Hgt; lia|].
    destruct (string_snoc rest) as (interior & last & ->).
    { intros ->. simpl in Hgt. lia. }
    simpl in Hgt. rewrite length_snoc in Hgt.
    exists first, last, interior. split; [done|].
    simpl String.length. rewrite length_snoc.
    replace (S (S (String.length interior)) - 2) with (String.length interior) by lia.
    cbv zeta. rewrite applyMask_long by lia. split_and!; [done | lia | lia |].
    intros interior' Hlen. rewrite applyMask_long by lia. by rewrite Hlen.
Qed.

Lemma applyMask_correct_witness :
  (String.length "key" ≤ 4)%nat ∧ applyMask "key" None = "****" ∧
  4 < String.length "longersecret" ∧
  ∃ (first last : ascii) (interior : string),
    "longersecret" = String first (interior +:+ String last EmptyString) ∧
    let n := Nat.min (String.length "longersecret" - 2) 8 in
    applyMask "longersecret" None
    = String first (repeat_char "*" n +:+ String last EmptyString) ∧
    (1 ≤ n ≤ 8)%nat ∧
    ∀ interior' : string,
      String.length interior' = String.length interior →
      applyMask (String first (interior' +:+ String last EmptyString)) None
      = applyMask "longersecret" None.
Proof.
  split_and!.
  - simpl. lia.
  - apply (applyMask_correct "key"). simpl. lia.
  - simpl. lia.
  - apply (applyMask_correct "longersecret"). simpl. lia.
Defined.

Lemma char_at_template_nonempty (s : string) (i : nat) :
  char_at_template s i ≠ EmptyString.
Proof. unfold char_at_template. by destruct (String.get i s). Qed.

(** C9. An explicitly supplied empty replacement is returned as it is,
    whatever the value; the default mask, applied only when no replacement
    is supplied, is never empty. *)
Theorem applyMask_empty_replacement (v : string) :
  applyMask v (Some EmptyString) = EmptyString
  ∧ applyMask v None ≠ EmptyString.
Proof.
  split; [reflexivity|]. unfold applyMask.
  destruct (String.length v <=? 4)%nat; [done|].
  pose proof (char_at_template_nonempty v 0) as Hne.
  destruct (char_at_template v 0); [done|]. by rewrite append_cons.
Qed.

End MatchingFacts.

(** ** The configuration loader *)
Module WrapUtilsFacts.
Import JS WrapUtils.

Section Loader.
Context `{RegExpEngine}.

Lemma convertMatch_ok (m : jsval) (next : nat) :
  (∀ s, m = JString s → regex_like s = true → SyntaxOk s flags_i = true) →
  ∃ m' next', convertMatch m next = Normal (m', next') ∧
    match m with
    | JString s =>
        if regex_like s
        then ∃ re, m' = JRegExp re ∧ source re = s ∧ flags re = flags_i
        else m' = m
    | _ => m' = m
    end.
Proof.
  intros Hok. destruct m as [| |b|n|s|items|fields|re];
    try (by eexists _, _; split; [reflexivity|]).
  unfold convertMatch. fold (regex_like s).
  destruct (regex_like s) eqn:Hlike.
  - unfold bind, new_RegExp. rewrite (Hok s eq_refl Hlike).
    eexists _, _. split; [reflexivity|]. by eexists.
  - by eexists _, _.
Qed.

Lemma convertRule_ok (r : rule_object) (next : nat) :
  compilable r →
  ∃ r' next', convertRule r next = Normal (r', next') ∧ converted r r'.
Proof.
  intros Hok. unfold convertRule, bind.
  destruct (convertMatch_ok (default JUndefined (r !! "match")) next)
    as (m' & next' & -> & Hm').
  { intros s Hs. apply Hok. by destruct (r !! "match") as [m|]; simplify_eq/=. }
  eexists _, _. split; [reflexivity|]. split.
  - intros k Hk. by rewrite lookup_insert_ne.
  - rewrite lookup_insert_eq.
    destruct (default JUndefined (r !! "match")); try by subst.
    destruct (regex_like s); [|by subst].
    destruct Hm' as (re & -> & Hre). by exists re.
Qed.

Lemma map_array_ok (l : list rule_object) (next : nat) :
  Forall compilable l →
  ∃ l' next',
    map_array convertRule l next = Normal (l', next') ∧ Forall2 converted l l'.
Proof.
  intros Hok. revert next.
  induction Hok as [|r l Hr _ IH]; intros next; simpl.
  - by eexists _, _.
  - unfold bind at 1.
    destruct (convertRule_ok r next Hr) as (r' & next1 & -> & Hconv).
    unfold bind at 1.
    destruct (IH next1) as (l' & next2 & -> & Hl').
    eexists _, _. split; [reflexivity|]. by constructor.
Qed.

Lemma convertRules_ok (a : option (list rule_object)) (next : nat) :
  Forall compilable (default [] a) →
  ∃ a' next',
    convertRules a next = Normal (a', next') ∧ arrays_converted a a'.
Proof.
  intros Hok. destruct a as [l|]; simpl.
  - unfold bind.
    destruct (map_array_ok l next Hok) as (l' & next' & -> & Hl').
    by eexists _, _.
  - by eexists _, _.
Qed.

(** The arrays keep their lengths. *)
Lemma arrays_converted_length (a a' : option (list rule_object)) :
  arrays_converted a a' →
  length (default [] a') = length (default [] a).
Proof.
  destruct a as [l|], a' as [l'|]; simpl; try done.
  intros Hconv. symmetry. by eapply Forall2_length.
Qed.

(** C5, amended. When every pattern string the heuristic selects is a
    source that compiles, [parseJsonConfig] returns a configuration in
    which each of the three arrays is converted rule by rule, in order and
    of the same length: a string beginning with ["^"] or containing ["|"]
    becomes a case-insensitive expression with that source, any other
    [match] and every other property is kept. *)
Theorem parseJsonConfig_converts (parsed : VeilConfig) (next : nat) :
  Forall compilable (all_rules parsed) →
  ∃ result next',
    parseJsonConfig parsed next = Normal (result, next') ∧
    arrays_converted (fileRules parsed) (fileRules result) ∧
    arrays_converted (envRules parsed) (envRules result) ∧
    arrays_converted (cliRules parsed) (cliRules result) ∧
    length (default [] (fileRules result))
    = length (default [] (fileRules parsed)) ∧
    length (default [] (envRules result))
    = length (default [] (envRules parsed)) ∧
    length (default [] (cliRules result))
    = length (default [] (cliRules parsed)).
Proof.
  unfold all_rules. rewrite !Forall_app. intros (Hf & He & Hc).
  unfold parseJsonConfig.
  unfold bind at 1.
  destruct (convertRules_ok _ next Hf) as (f & n1 & -> & Hf').
  unfold bind at 1.
  destruct (convertRules_ok _ n1 He) as (e & n2 & -> & He').
  unfold bind at 1.
  destruct (convertRules_ok _ n2 Hc) as (c & n3 & -> & Hc').
  eexists _, _. split; [reflexivity|]. simpl.
  split_and!; try done; by apply arrays_converted_length.
Qed.

(** Whatever the engine, as long as it refuses the source ["^("]. *)
Lemma parseJsonConfig_throws_on_refused_source (next : nat) :
  SyntaxOk "^(" flags_i = false →
  parseJsonConfig Examples.unterminated_group_config next = Throw SyntaxError.
Proof.
  intros Hrefused. unfold parseJsonConfig, bind. simpl.
  unfold bind, convertRule, bind. rewrite lookup_insert_eq. simpl.
  unfold bind, new_RegExp. by rewrite Hrefused.
Qed.

End Loader.

Lemma parseJsonConfig_converts_witness :
  Forall (compilable (H:=Fragment.engine)) (all_rules Examples.sample_config) ∧
  ∃ result next',
    parseJsonConfig (H:=Fragment.engine) Examples.sample_config 0
    = Normal (result, next') ∧
    arrays_converted (fileRules Examples.sample_config) (fileRules result) ∧
    arrays_converted (envRules Examples.sample_config) (envRules result) ∧
    arrays_converted (cliRules Examples.sample_config) (cliRules result) ∧
    length (default [] (fileRules result))
    = length (default [] (fileRules Examples.sample_config)) ∧
    length (default [] (envRules result))
    = length (default [] (envRules Examples.sample_config)) ∧
    length (default [] (cliRules result))
    = length (default [] (cliRules Examples.sample_config)).
Proof.
  assert (Forall (compilable (H:=Fragment.engine))
            (all_rules Examples.sample_config)) as Hok.
  { repeat constructor; intros s Hs _; vm_compute in Hs;
      injection Hs as <-; reflexivity. }
  split; [exact Hok|].
  exact (parseJsonConfig_converts (H:=Fragment.engine)
           Examples.sample_config 0 Hok).
Defined.

(** C5 as stated fails on a selected string that is not a valid source:
    ["^("] begins with ["^"], and compiling it throws. *)
Lemma parseJsonConfig_unterminated_group_throws :
  parseJsonConfig (H:=Fragment.engine) Examples.unterminated_group_config 0
  = Throw SyntaxError.
Proof. reflexivity. Qed.

End WrapUtilsFacts.

(** ** Rule packs *)
Module CategoriesFacts.
Import JS Categories.

Lemma lookup_set_rules (config : gmap string RuleConfig)
    (ruleIds : list string) (id : string) :
  set_rules config ruleIds !! id
  = if bool_decide (id ∈ ruleIds) then Some (Severity error) else config !! id.
Proof.
  unfold set_rules. revert config.
  induction ruleIds as [|ruleId ruleIds IH]; intros config; simpl; [done|].
  rewrite IH. destruct (decide (id ∈ ruleIds)) as [Hin|Hnin].
  - rewrite !bool_decide_eq_true_2; [done | by apply list_elem_of_further | done].
  - rewrite (bool_decide_eq_false_2 (id ∈ ruleIds)) by done.
    destruct (decide (ruleId = id)) as [->|Hne].
    + rewrite lookup_insert_eq, bool_decide_eq_true_2; [done|]. apply list_elem_of_here.
    + rewrite lookup_insert_ne by done.
      rewrite bool_decide_eq_false_2; [done|].
      intros [->|Hin]%elem_of_cons; done.
Qed.

(** The configuration after the packs of [packNames] were written over
    [config]. *)
Lemma lookup_set_packs (config : gmap string RuleConfig)
    (packNames : list string) (id : string) :
  foldl (λ cfg n, set_rules cfg (pack_rules n)) config packNames !! id
  = if bool_decide (Exists (λ n, id ∈ pack_rules n) packNames)
    then Some (Severity error) else config !! id.
Proof.
  revert config.
  induction packNames as [|n packNames IH]; intros config; simpl.
  - done.
  - rewrite IH, lookup_set_rules.
    destruct (decide (Exists (λ n', id ∈ pack_rules n') packNames)) as [Hex|Hnex].
    + rewrite !bool_decide_eq_true_2; [done | by apply Exists_cons_tl | done].
    + rewrite (bool_decide_eq_false_2 (Exists _ packNames)) by done.
      destruct (decide (id ∈ pack_rules n)) as [Hin|Hnin].
      * rewrite !bool_decide_eq_true_2; [done | by apply Exists_cons_hd | done].
      * rewrite !bool_decide_eq_false_2; [done | | done].
        by intros [?|?]%Exists_cons.
Qed.

(** As long as no name is found on the prototype, the loop returns
    normally: packs are written, the other names are reported and
    skipped. *)
Lemma fromPacks_loop_ok (packNames : list string)
    (config : gmap string RuleConfig) (warnings : list string) :
  Forall (λ n, RULE_PACKS_get n ≠ PrototypeMember) packNames →
  fromPacks_loop packNames config warnings
  = (Normal (foldl (λ cfg n, set_rules cfg (pack_rules n)) config packNames),
     (warnings ++ unknown_warnings packNames)%list).
Proof.
  intros Hok. revert config warnings.
  induction Hok as [|n packNames Hn _ IH]; intros config warnings; simpl.
  - by rewrite app_nil_r.
  - unfold pack_rules at 2. unfold RULE_PACKS_get in *.
    destruct (own_property RULE_PACKS n) as [pack|]; [by rewrite IH|].
    case_bool_decide; [done|]. by rewrite IH, <-app_assoc.
Qed.

Lemma known_pack_get (n : string) :
  known_pack n → ∃ pack, RULE_PACKS_get n = OwnPack pack.
Proof.
  intros [pack Hpack]. exists pack. unfold RULE_PACKS_get. by rewrite Hpack.
Qed.

Lemma unknown_warnings_known (packNames : list string) :
  Forall known_pack packNames → unknown_warnings packNames = [].
Proof.
  unfold unknown_warnings. induction 1 as [|n packNames Hn _ IH]; [done|].
  destruct (known_pack_get n Hn) as [pack Hpack].
  cbn [omap list_omap]. by rewrite Hpack.
Qed.

(** On known packs [fromPacks] returns normally and warns of nothing. *)
Lemma fromPacks_known (packNames : list string) :
  Forall known_pack packNames →
  fromPacks packNames
  = (Normal (foldl (λ cfg n, set_rules cfg (pack_rules n)) ∅ packNames), []).
Proof.
  intros Hknown. unfold fromPacks. rewrite fromPacks_loop_ok.
  - by rewrite unknown_warnings_known.
  - eapply Forall_impl; [exact Hknown|]. intros n Hn.
    by destruct (known_pack_get n Hn) as [pack ->].
Qed.

(** When no name is found on the prototype, the configuration holds
    ["error"] for exactly the rule ids of the packs named, and each name
    that is not a pack is reported. *)
Lemma fromPacks_entries (packNames : list string) :
  Forall (λ n, RULE_PACKS_get n ≠ PrototypeMember) packNames →
  ∃ config,
    fromPacks packNames = (Normal config, unknown_warnings packNames) ∧
    ∀ id, config !! id
          = if bool_decide (Exists (λ n, id ∈ pack_rules n) packNames)
            then Some (Severity error) else None.
Proof.
  intros Hok. eexists. split.
  - unfold fromPacks. by rewrite fromPacks_loop_ok.
  - intros id. by rewrite lookup_set_packs, lookup_empty.
Qed.

(** A name found on the prototype makes the loop throw as soon as it is
    reached. *)
Lemma fromPacks_loop_prototype_member (before after : list string)
    (p : string) (config : gmap string RuleConfig) (warnings : list string) :
  Forall (λ n, RULE_PACKS_get n ≠ PrototypeMember) before →
  RULE_PACKS_get p = PrototypeMember →
  (fromPacks_loop (before ++ p :: after) config warnings).1 = Throw TypeError.
Proof.
  intros Hok Hp. revert config warnings.
  induction Hok as [|n before Hn _ IH]; intros config warnings.
  - simpl app. cbn [fromPacks_loop]. by rewrite Hp.
  - rewrite <-app_comm_cons. cbn [fromPacks_loop].
    destruct (RULE_PACKS_get n); [apply IH | done | apply IH].
Qed.

(** C7. The names ["constructor"] and ["toString"] are not packs, yet
    [fromPacks] throws on them instead of reporting and skipping them as it
    does for ["unknown-pack"]. *)
Theorem fromPacks_constructor_throws :
  fromPacks ["constructor"] = (Throw TypeError, [])
  ∧ fromPacks ["minimal"; "toString"] = (Throw TypeError, [])
  ∧ fromPacks ["unknown-pack"]
    = (Normal ∅, ["Unknown rule pack: unknown-pack"]).
Proof. by split_and!. Qed.

(** C10. On known pack names the configuration depends only on which
    names occur, not on their order or repetition, and every entry is
    ["error"]. *)
Theorem fromPacks_order_irrelevant (names1 names2 : list string) :
  Forall known_pack names1 →
  Forall known_pack names2 →
  (∀ n, n ∈ names1 ↔ n ∈ names2) →
  fromPacks names1 = fromPacks names2 ∧
  ∃ config, fromPacks names1 = (Normal config, []) ∧
            ∀ id rc, config !! id = Some rc → rc = Severity error.
Proof.
  intros Hk1 Hk2 Hsame. rewrite !fromPacks_known by done. split.
  - f_equal. f_equal. apply map_eq. intros id. rewrite !lookup_set_packs.
    apply (f_equal (λ b : bool, if b then _ else _)).
    apply bool_decide_ext. rewrite !Exists_exists.
    split; intros (n & Hn & Hid); exists n; (split; [by apply Hsame | done]).
  - eexists. split; [reflexivity|]. intros id rc. rewrite lookup_set_packs.
    case_bool_decide; [congruence | by rewrite lookup_empty].
Qed.

Lemma fromPacks_order_irrelevant_witness :
  Forall known_pack ["minimal"; "context:ci"] ∧
  Forall known_pack ["context:ci"; "minimal"; "minimal"] ∧
  fromPacks ["minimal"; "context:ci"]
  = fromPacks ["context:ci"; "minimal"; "minimal"].
Proof.
  assert (Forall known_pack ["minimal"; "context:ci"]) as Hk1
    by (repeat constructor; by eexists).
  assert (Forall known_pack ["context:ci"; "minimal"; "minimal"]) as Hk2
    by (repeat constructor; by eexists).
  split_and!; [exact Hk1 | exact Hk2 |].
  apply (fromPacks_order_irrelevant _ _ Hk1 Hk2).
  intros n. rewrite !elem_of_cons, elem_of_nil. tauto.
Defined.

End CategoriesFacts.

(** ** Merging *)
Module PresetsFacts.
Import Matching Presets.

(** C6. Merging two configurations concatenates, kind by kind, the rules
    of the first and the rules of the second: each merged array has the sum
    of the two lengths and the first argument's rules come first. *)
Theorem mergeConfigs_concatenates (cfgA cfgB : VeilConfig) :
  let merged := mergeConfigs [cfgA; cfgB] in
  fileRules merged
  = Some (rulesOf (fileRules cfgA) ++ rulesOf (fileRules cfgB))%list ∧
  envRules merged
  = Some (rulesOf (envRules cfgA) ++ rulesOf (envRules cfgB))%list ∧
  cliRules merged
  = Some (rulesOf (cliRules cfgA) ++ rulesOf (cliRules cfgB))%list ∧
  length (rulesOf (fileRules merged))
  = length (rulesOf (fileRules cfgA)) + length (rulesOf (fileRules cfgB)) ∧
  length (rulesOf (envRules merged))
  = length (rulesOf (envRules cfgA)) + length (rulesOf (envRules cfgB)) ∧
  length (rulesOf (cliRules merged))
  = length (rulesOf (cliRules cfgA)) + length (rulesOf (cliRules cfgB)).
Proof.
  simpl. rewrite !app_nil_r, !length_app. by split_and!.
Qed.

End PresetsFacts.

(** ** The expectations of the test suites, evaluated *)
Module SourceTests.
Import JS Matching.

Example matchesPattern_regexp_hit :
  (matchesPattern (H:=Fragment.engine) "AWS_SECRET_KEY"
     (PRegExp Examples.re_aws) ∅).1 = true.
Proof. reflexivity. Qed.

Example matchesPattern_regexp_miss :
  (matchesPattern (H:=Fragment.engine) "OTHER_VAR"
     (PRegExp Examples.re_aws) ∅).1 = false.
Proof. reflexivity. Qed.

Example applyMask_short : applyMask "short" None = "s***t".
Proof. reflexivity. Qed.

Example applyMask_longersecret :
  applyMask "longersecret" None = "l********t".
Proof. reflexivity. Qed.

Example applyMask_redacted :
  applyMask "anything" (Some "[REDACTED]") = "[REDACTED]".
Proof. reflexivity. Qed.

Example findMatchingRule_first_file :
  (findMatchingRule (H:=Fragment.engine) "first-file"
     [ {| file_match := PString "first"; file_action := deny;
          file_reason := None |};
       {| file_match := PString "second"; file_action := allow;
          file_reason := None |} ] ∅).1
  = Some ({| file_match := PString "first"; file_action := deny;
             file_reason := None |}, 0).
Proof. reflexivity. Qed.

Example parseJsonConfig_sample :
  WrapUtils.parseJsonConfig (H:=Fragment.engine) Examples.sample_config 0
  = Normal
      ({| WrapUtils.fileRules :=
            Some [ {[ "match" := WrapUtils.JRegExp
                                   {| re_id := 0; source := "^secrets/";
                                      flags := flags_i |};
                      "action" := WrapUtils.JString "deny" ]} ];
          WrapUtils.envRules :=
            Some [ {[ "match" := WrapUtils.JRegExp
                                   {| re_id := 1; source := "API_KEY|SECRET";
                                      flags := flags_i |};
                      "action" := WrapUtils.JString "mask" ]} ];
          WrapUtils.cliRules :=
            Some [ {[ "match" := WrapUtils.JString "rm -rf";
                      "action" := WrapUtils.JString "deny";
                      "reason" := WrapUtils.JString "no" ]} ] |}, 2).
Proof. vm_compute. reflexivity. Qed.

Example parsed_regexp_tests_true :
  (RegExp_test (H:=Fragment.engine)
     {| re_id := 0; source := "^secrets/"; flags := flags_i |}
     "secrets/api.key" ∅).1 = true.
Proof. reflexivity. Qed.

Example fromPacks_recommended_linux :
  ∃ config,
    Categories.fromPacks ["security:recommended"; "platform:linux"]
    = (Normal config, []) ∧
    config !! "env/mask-aws" = Some (Categories.Severity Categories.error) ∧
    config !! "linux/no-delete-root"
    = Some (Categories.Severity Categories.error).
Proof. eexists. split_and!; [reflexivity | |]; by vm_compute. Qed.

Example policyRef_cli_rule :
  (evaluateRules (H:=Fragment.engine) "rm -rf /"
     [ {| cli_match := PString "rm -rf"; cli_action := deny;
          cli_reason := None; cli_safeAlternatives := Some ["rm -i"];
          cli_rewrite := None |} ] ∅).1
  = Some {| action := deny;
            rule := {| cli_match := PString "rm -rf"; cli_action := deny;
                       cli_reason := None;
                       cli_safeAlternatives := Some ["rm -i"];
                       cli_rewrite := None |};
            policyRef := "cliRules[0]" |}.
Proof. reflexivity. Qed.

Example policyRef_env_rule :
  policyRef <$>
    (evaluateRules (H:=Fragment.engine) "DATABASE_URL"
       [ {| env_match := PRegExp Examples.re_aws; env_action := mask;
            env_reason := None; env_replacement := None |};
         {| env_match := PString "DATABASE_URL"; env_action := deny;
            env_reason := None; env_replacement := None |} ] ∅).1
  = Some "rules[1]".
Proof. reflexivity. Qed.

Example no_pack_lists_proto :
  Forall (λ entry, "__proto__" ∉ Categories.rules entry.2) Categories.RULE_PACKS.
Proof. apply (bool_decide_unpack _). by vm_compute. Qed.

Example fromPacks_unknown_pack :
  Categories.fromPacks ["unknown-pack"]
  = (Normal ∅, ["Unknown rule pack: unknown-pack"]).
Proof. reflexivity. Qed.

Example mergeConfigs_lengths :
  let config2 :=
    {| Presets.fileRules :=
         Some [ {| file_match := PString "test"; file_action := deny;
                   file_reason := None |} ];
       Presets.envRules := None; Presets.cliRules := None;
       Presets.injectors := None |} in
  let merged :=
    Presets.mergeConfigs
      [ {| Presets.fileRules := None; Presets.envRules := None;
           Presets.cliRules := None; Presets.injectors := None |};
        config2 ] in
  length (Presets.rulesOf (Presets.fileRules merged)) = 1 ∧
  Presets.envRules merged = Some [] ∧ Presets.cliRules merged = Some [].
Proof. by split_and!. Qed.

End SourceTests.

(** ** More on strings *)
Module JSStringFacts.
Import JS JSString JSFacts.
Local Open Scope nat_scope.

Lemma append_nil_r (s : string) : s +:+ EmptyString = s.
Proof. induction s as [|c s IH]; [done|]. by rewrite append_cons, IH. Qed.

Lemma append_assoc (a b c : string) : (a +:+ b) +:+ c = a +:+ b +:+ c.
Proof. induction a as [|x a IH]; [done|]. by rewrite !append_cons, IH. Qed.

Lemma length_append (a b : string) :
  String.length (a +:+ b) = String.length a + String.length b.
Proof. induction a as [|x a IH]; [done|]. rewrite append_cons. simpl. by rewrite IH. Qed.

Lemma append_inv_head (a b c : string) : a +:+ b = a +:+ c → b = c.
Proof.
  induction a as [|x a IH]; [done|]. rewrite !append_cons. intros [= Heq]. auto.
Qed.

Lemma append_eq_length (a b c d : string) :
  a +:+ b = c +:+ d → String.length a = String.length c → a = c ∧ b = d.
Proof.
  revert c. induction a as [|x a IH]; intros [|y c]; try done.
  rewrite !append_cons. intros [= -> Heq] [= Hlen].
  destruct (IH c Heq Hlen) as [-> ->]. done.
Qed.

Lemma append_inv_tail (a b c : string) : a +:+ c = b +:+ c → a = b.
Proof.
  intros Heq. apply (append_eq_length a c b c Heq).
  apply (f_equal String.length) in Heq. rewrite !length_append in Heq. lia.
Qed.

Lemma slice_to_append (a b : string) : slice_to (a +:+ b) (String.length a) = a.
Proof. induction a as [|x a IH]; [by destruct b|]. rewrite append_cons. simpl. by rewrite IH. Qed.

Lemma slice_from_append (a b : string) (n : nat) :
  slice_from (a +:+ b) (String.length a + n) = slice_from b n.
Proof. induction a as [|x a IH]; [done|]. rewrite append_cons. simpl. apply IH. Qed.

Lemma slice_from_length (s : string) : slice_from s (String.length s) = EmptyString.
Proof. induction s as [|c s IH]; [done|]. simpl. apply IH. Qed.

Lemma slice_to_from (s : string) (i : nat) :
  slice_to s i +:+ slice_from s i = s.
Proof.
  revert i. induction s as [|c s IH]; intros [|i]; try done.
  simpl. by rewrite append_cons, IH.
Qed.

Lemma startsWith_append (p post : string) : startsWith (p +:+ post) p = true.
Proof. apply startsWith_spec. by exists post. Qed.

Lemma includes_append_l (a b p : string) :
  includes a p = true → includes (a +:+ b) p = true.
Proof.
  rewrite !includes_spec. intros (pre & post & ->).
  exists pre, (post +:+ b). by rewrite !append_assoc.
Qed.

Lemma includes_append_r (a b p : string) :
  includes b p = true → includes (a +:+ b) p = true.
Proof.
  rewrite !includes_spec. intros (pre & post & ->).
  exists (a +:+ pre), post. by rewrite !append_assoc.
Qed.

Lemma includes_self_append (pre p post : string) :
  includes (pre +:+ p +:+ post) p = true.
Proof. apply includes_spec. by exists pre, post. Qed.

Lemma includes_length (s p : string) :
  includes s p = true → String.length p ≤ String.length s.
Proof.
  rewrite includes_spec. intros (pre & post & ->). rewrite !length_append. lia.
Qed.

Lemma endsWith_spec (s p : string) :
  endsWith s p = true ↔ ∃ pre, s = pre +:+ p.
Proof.
  unfold endsWith. rewrite String.eqb_eq. split.
  - intros Heq. exists (slice_to s (String.length s - String.length p)).
    pose proof (slice_to_from s (String.length s - String.length p)) as Hcut.
    by rewrite Heq in Hcut.
  - intros [pre ->]. rewrite length_append.
    replace (String.length pre + String.length p - String.length p)
      with (String.length pre + 0) by lia.
    by rewrite slice_from_append.
Qed.

Lemma indexOf_includes (s p : string) :
  is_Some (indexOf s p) ↔ includes s p = true.
Proof.
  induction s as [|c s IH]; simpl.
  - destruct (startsWith EmptyString p); [by split; [|eexists] |].
    split; [by intros [? ?] | done].
  - destruct (startsWith (String c s) p); [by split; [|eexists] |].
    rewrite orb_false_l, <-IH, fmap_is_Some. done.
Qed.

Lemma indexOf_None (s p : string) :
  indexOf s p = None ↔ includes s p = false.
Proof.
  rewrite eq_None_not_Some, indexOf_includes. by destruct (includes s p).
Qed.

(** The index found is the start of an occurrence, and the first one. *)
Lemma indexOf_Some (s p : string) (i : nat) :
  indexOf s p = Some i ↔
  startsWith (slice_from s i) p = true ∧ i ≤ String.length s ∧
  ∀ j, j < i → startsWith (slice_from s j) p = false.
Proof.
  revert i. induction s as [|c s IH]; intros i; simpl.
  - destruct (startsWith EmptyString p) eqn:Hp.
    + split.
      * intros [= <-]. split_and!; [done | done | intros j; lia].
      * intros (_ & Hi & _). f_equal. lia.
    + split; [done|]. intros (Hi & _ & _). destruct i; simpl in Hi; congruence.
  - destruct (startsWith (String c s) p) eqn:Hp.
    + split.
      * intros [= <-]. split_and!; [done | lia | intros j; lia].
      * intros (_ & _ & Hmin). destruct i as [|i]; [done|].
        specialize (Hmin 0 ltac:(lia)). simpl in Hmin. congruence.
    + destruct i as [|i].
      * split; [by destruct (indexOf s p) | ]. intros (Hi & _). simpl in Hi. congruence.
      * rewrite fmap_Some. split.
        -- intros (i' & Hi' & [= ->]). apply IH in Hi' as (Hat & Hle & Hmin).
           split_and!; [done | lia |]. intros [|j] Hj; [done|]. apply Hmin. lia.
        -- intros (Hat & Hle & Hmin). exists i. split; [|done].
           apply IH. split_and!; [done | lia |].
           intros j Hj. apply (Hmin (S j)). lia.
Qed.

End JSStringFacts.

(** ** Rule evaluation over concatenated lists, literal patterns, masks *)
Module MatchingExtras.
Import JS JSString Matching JSFacts JSStringFacts MatchingFacts.
Local Open Scope nat_scope.

Section Concatenation.
Context `{RegExpEngine} {T : Type} `{BaseRule T}.
Implicit Types (target : string) (σ : store).

(** Entering the loop at index [k] only shifts the index returned. *)
Lemma findMatchingRule_from_shift (k : nat) target (rules : list T) σ :
  findMatchingRule_from k target rules σ
  = match findMatchingRule_from 0 target rules σ with
    | (Some (r, i), σ') => (Some (r, k + i), σ')
    | (None, σ') => (None, σ')
    end.
Proof.
  revert k σ. induction rules as [|r rest IH]; intros k σ; simpl; [done|].
  destruct (matchesPattern target (rule_match r) σ) as [[] σ'].
  - by rewrite Nat.add_0_r.
  - rewrite (IH (S k)), (IH 1).
    destruct (findMatchingRule_from 0 target rest σ') as [[[r' i]|] σ''];
      [|done].
    do 2 f_equal. f_equal. lia.
Qed.

Lemma findMatchingRule_from_app (k : nat) target (A B : list T) σ :
  findMatchingRule_from k target (A ++ B) σ
  = match findMatchingRule_from k target A σ with
    | (Some hit, σ') => (Some hit, σ')
    | (None, σ') => findMatchingRule_from (k + length A) target B σ'
    end.
Proof.
  revert k σ. induction A as [|r rest IH]; intros k σ; simpl.
  - by rewrite Nat.add_0_r.
  - destruct (matchesPattern target (rule_match r) σ) as [[] σ']; [done|].
    rewrite IH. replace (S k + length rest) with (k + S (length rest)) by lia.
    done.
Qed.

(** X1. Scanning the concatenation of two rule lists: a match in the
    first list is returned as it is, the second list is not consulted;
    otherwise the scan goes on in the second list, from the store the first
    scan left, and the index returned is offset by the length of the
    first. *)
Theorem findMatchingRule_app target (A B : list T) σ :
  findMatchingRule target (A ++ B) σ
  = match findMatchingRule target A σ with
    | (Some hit, σ') => (Some hit, σ')
    | (None, σ') =>
        match findMatchingRule target B σ' with
        | (Some (r, i), σ'') => (Some (r, length A + i), σ'')
        | (None, σ'') => (None, σ'')
        end
    end.
Proof.
  unfold findMatchingRule. rewrite findMatchingRule_from_app.
  destruct (findMatchingRule_from 0 target A σ) as [[hit|] σ']; [done|].
  apply findMatchingRule_from_shift.
Qed.

(** X2. Rules appended after a list never change a decision the list
    makes: when the first list decides, the concatenation returns that very
    evaluation; when it does not, the action and rule are those the second
    list gives. *)
Theorem evaluateRules_app target (A B : list T) σ :
  match evaluateRules target A σ with
  | (Some ev, σ') => evaluateRules target (A ++ B) σ = (Some ev, σ')
  | (None, σ') =>
      (λ ev, (action ev, rule ev)) <$> (evaluateRules target (A ++ B) σ).1
      = (λ ev, (action ev, rule ev)) <$> (evaluateRules target B σ').1
      ∧ (evaluateRules target (A ++ B) σ).2 = (evaluateRules target B σ').2
  end.
Proof.
  unfold evaluateRules, findMatchingRule. rewrite findMatchingRule_from_app.
  destruct (findMatchingRule_from 0 target A σ) as [[[r i]|] σ']; [done|].
  rewrite findMatchingRule_from_shift.
  by destruct (findMatchingRule_from 0 target B σ') as [[[r i]|] σ''].
Qed.

End Concatenation.

Section Literals.
Context `{RegExpEngine}.

(** X3. A literal pattern that matches a target matches every string
    that contains the target: what surrounds it cannot undo the match. *)
Theorem matchesPattern_literal_embedding (target pattern pre post : string)
    (σ : store) :
  (matchesPattern target (PString pattern) σ).1 = true →
  (matchesPattern (pre +:+ target +:+ post) (PString pattern) σ).1 = true.
Proof.
  simpl. rewrite !orb_true_iff, !String.eqb_eq. intros Hm. right.
  apply includes_append_r, includes_append_l.
  destruct Hm as [->|Hin]; [|done].
  apply includes_spec. exists EmptyString, EmptyString.
  by rewrite append_nil_r.
Qed.

(** X4. The empty literal pattern matches every target, and a literal
    pattern longer than the target matches none. *)
Theorem matchesPattern_literal_bounds (target : string) (σ : store) :
  (matchesPattern target (PString EmptyString) σ).1 = true
  ∧ ∀ pattern : string,
      String.length target < String.length pattern →
      (matchesPattern target (PString pattern) σ).1 = false.
Proof.
  split.
  - simpl. apply orb_true_iff. right. by destruct target.
  - intros pattern Hlen. simpl. apply orb_false_iff. split.
    + apply String.eqb_neq. intros ->. lia.
    + destruct (includes target pattern) eqn:Hin; [|done].
      apply includes_length in Hin. lia.
Qed.

End Literals.

Lemma matchesPattern_literal_embedding_witness :
  (matchesPattern (H:=Fragment.engine) "node_modules" (PString "node_modules") ∅).1
  = true ∧
  (matchesPattern (H:=Fragment.engine) ("/srv/" +:+ "node_modules" +:+ "/pkg")
     (PString "node_modules") ∅).1 = true.
Proof.
  split; [reflexivity|].
  by apply (matchesPattern_literal_embedding (H:=Fragment.engine)).
Defined.

Lemma matchesPattern_literal_bounds_witness :
  String.length "src" < String.length "node_modules" ∧
  (matchesPattern (H:=Fragment.engine) "src" (PString "node_modules") ∅).1
  = false.
Proof.
  split; [simpl; lia|].
  apply (matchesPattern_literal_bounds (H:=Fragment.engine) "src" ∅).
  simpl; lia.
Defined.

End MatchingExtras.

(** ** The default mask and policy references *)
Module MaskExtras.
Import JS JSString Matching JSFacts JSStringFacts MatchingFacts.
Local Open Scope nat_scope.

Lemma long_value (v : string) :
  4 < String.length v →
  ∃ (first last : ascii) (interior : string),
    v = String first (interior +:+ String last EmptyString) ∧
    3 ≤ String.length interior.
Proof.
  intros Hgt. destruct v as [|first rest]; [simpl in Hgt; lia|].
  destruct (string_snoc rest) as (interior & last & ->).
  { intros ->. simpl in Hgt. lia. }
  simpl in Hgt. rewrite length_snoc in Hgt.
  exists first, last, interior. split; [done | lia].
Qed.

Lemma applyMask_at_most_four (v : string) :
  String.length v ≤ 4 → applyMask v None = "****".
Proof.
  intros Hle. unfold applyMask.
  by destruct (Nat.leb_spec (String.length v) 4); [|lia].
Qed.

Lemma length_mask (first last : ascii) (n : nat) :
  String.length (String first (repeat_char "*" n +:+ String last EmptyString))
  = n + 2.
Proof. simpl. rewrite length_snoc, length_repeat_char. lia. Qed.

(** X5. The default mask has length 4 for a value of at most four
    characters and otherwise the length of the value capped at 10: it is
    always between 4 and 10 characters long. *)
Theorem applyMask_length (v : string) :
  String.length (applyMask v None)
  = (if String.length v <=? 4 then 4 else Nat.min (String.length v) 10)
  ∧ 4 ≤ String.length (applyMask v None) ≤ 10.
Proof.
  destruct (Nat.leb_spec (String.length v) 4) as [Hle|Hgt].
  - rewrite applyMask_at_most_four by done. simpl. lia.
  - destruct (long_value v Hgt) as (first & last & interior & -> & Hlen).
    rewrite applyMask_long by done. rewrite length_mask.
    simpl String.length. rewrite length_snoc. lia.
Qed.

(** X6. Masking a default mask again gives the same mask. *)
Theorem applyMask_idempotent (v : string) :
  applyMask (applyMask v None) None = applyMask v None.
Proof.
  destruct (Nat.leb_spec (String.length v) 4) as [Hle|Hgt].
  - by rewrite (applyMask_at_most_four v Hle).
  - destruct (long_value v Hgt) as (first & last & interior & -> & Hlen).
    rewrite applyMask_long by done.
    rewrite applyMask_long by (rewrite length_repeat_char; lia).
    rewrite length_repeat_char. do 3 f_equal. lia.
Qed.

(** X7. The default mask leaves a value as it is exactly when the value
    already has the shape of a mask: four asterisks, or a first and a last
    character around three to eight asterisks. *)
Theorem applyMask_fixed_points (v : string) :
  applyMask v None = v ↔
  v = "****" ∨
  ∃ (first last : ascii) (n : nat),
    3 ≤ n ≤ 8 ∧
    v = String first (repeat_char "*" n +:+ String last EmptyString).
Proof.
  split.
  - intros Hfix. destruct (Nat.leb_spec (String.length v) 4) as [Hle|Hgt].
    + left. rewrite <-Hfix. by apply applyMask_at_most_four.
    + right. destruct (long_value v Hgt) as (first & last & interior & -> & Hlen).
      rewrite applyMask_long in Hfix by done.
      injection Hfix as Hfix. apply append_inv_tail in Hfix.
      exists first, last, (Nat.min (String.length interior) 8).
      split; [lia|]. by rewrite Hfix.
  - intros [->|(first & last & n & Hn & ->)]; [done|].
    rewrite applyMask_long by (rewrite length_repeat_char; lia).
    rewrite length_repeat_char. do 3 f_equal. lia.
Qed.

(** Decimal numerals. *)
Lemma number_to_string_inj (i j : nat) :
  number_to_string i = number_to_string j → i = j.
Proof.
  unfold number_to_string. intros Heq.
  apply (f_equal NilEmpty.uint_of_string) in Heq.
  rewrite !NilEmpty.usu in Heq. injection Heq as Heq.
  apply (f_equal Nat.of_uint) in Heq. by rewrite !Unsigned.of_to in Heq.
Qed.

Lemma string_of_uint_no_bracket (d : Decimal.uint) :
  has_char "[" (NilEmpty.string_of_uint d) = false.
Proof. induction d; simpl; done. Qed.

Lemma has_char_append (x : ascii) (a b : string) :
  has_char x (a +:+ b) = has_char x a || has_char x b.
Proof.
  induction a as [|c a IH]; [done|]. rewrite append_cons. simpl.
  by rewrite IH, orb_assoc.
Qed.

(** A separator that occurs in neither tail splits a string in one way
    only. *)
Lemma split_at_last (x : ascii) (t1 t2 d1 d2 : string) :
  has_char x d1 = false → has_char x d2 = false →
  t1 +:+ String x d1 = t2 +:+ String x d2 → t1 = t2 ∧ d1 = d2.
Proof.
  intros Hd1 Hd2. revert t2.
  induction t1 as [|a t1 IH]; intros [|b t2]; rewrite ?append_cons, ?append_empty.
  - by intros [= ->].
  - intros [= -> ->]. rewrite has_char_append in Hd1. simpl in Hd1.
    rewrite Ascii.eqb_refl, orb_true_r in Hd1. done.
  - intros [= -> <-]. rewrite has_char_append in Hd2. simpl in Hd2.
    rewrite Ascii.eqb_refl, orb_true_r in Hd2. done.
  - intros [= -> Heq]. by destruct (IH t2 Heq) as [-> ->].
Qed.

(** X8. A policy reference names one rule type and one index: two
    references are equal only if both are. *)
Theorem generatePolicyRef_inj (ruleType1 ruleType2 : string) (i j : nat) :
  generatePolicyRef ruleType1 i = generatePolicyRef ruleType2 j →
  ruleType1 = ruleType2 ∧ i = j.
Proof.
  unfold generatePolicyRef. intros Heq.
  change ("[" +:+ ?d +:+ "]") with (String "[" (d +:+ "]")) in Heq.
  assert (∀ k, has_char "[" (number_to_string k +:+ "]") = false) as Hdigits.
  { intros k. rewrite has_char_append. unfold number_to_string.
    by rewrite string_of_uint_no_bracket. }
  destruct (split_at_last "[" _ _ _ _ (Hdigits i) (Hdigits j) Heq) as [-> Htail].
  split; [done|]. by apply number_to_string_inj, (append_inv_tail _ _ "]").
Qed.

Lemma generatePolicyRef_inj_witness :
  generatePolicyRef "rules" 2 = generatePolicyRef "rules" 2 ∧
  "rules" = "rules" ∧ 2 = 2.
Proof.
  split; [reflexivity|]. by apply generatePolicyRef_inj.
Defined.

End MaskExtras.

(** ** The loader: failure, fixed point, fresh expressions *)
Module LoaderExtras.
Import JS WrapUtils WrapUtilsVocabulary JSFacts WrapUtilsFacts.
Local Open Scope nat_scope.

Section Loader.
Context `{RegExpEngine}.

(** The three ways [convertMatch] can go. *)
Lemma convertMatch_cases (m : jsval) (next : nat) :
  (∃ s, m = JString s ∧ regex_like s = true ∧ SyntaxOk s flags_i = false ∧
        convertMatch m next = Throw SyntaxError)
  ∨ (∃ s, m = JString s ∧ regex_like s = true ∧ SyntaxOk s flags_i = true ∧
          convertMatch m next
          = Normal (JRegExp {| re_id := next; source := s; flags := flags_i |},
                    S next))
  ∨ ((∀ s, m = JString s → regex_like s = false) ∧
     convertMatch m next = Normal (m, next)).
Proof.
  destruct m as [| |b|n|s|items|fields|re];
    try (right; right; by split).
  unfold convertMatch. fold (regex_like s).
  destruct (regex_like s) eqn:Hlike.
  - unfold bind, new_RegExp. destruct (SyntaxOk s flags_i) eqn:Hok.
    + right. left. by exists s.
    + left. by exists s.
  - right. right. split; [|done]. by intros s' [= <-].
Qed.













Lemma numbered_from_nil (next : nat) : numbered_from next next [].
Proof.
  unfold numbered_from. simpl. rewrite Nat.sub_diag. split_and!; [done | lia | constructor].
Qed.

Lemma numbered_from_app (n0 n1 n2 : nat) (l1 l2 : list rule_object) :
  numbered_from n0 n1 l1 → numbered_from n1 n2 l2 →
  numbered_from n0 n2 (l1 ++ l2).
Proof.
  unfold numbered_from, regexps. intros (Hids1 & Hle1 & Hfl1) (Hids2 & Hle2 & Hfl2).
  rewrite omap_app, map_app, Forall_app, Hids1, Hids2. split_and!; [|lia|done|done].
  replace (n2 - n0) with ((n1 - n0) + (n2 - n1)) by lia.
  rewrite seq_app. do 2 f_equal. lia.
Qed.

Lemma convertRule_numbered (r r' : rule_object) (next next' : nat) :
  match_regexp r = None →
  convertRule r next = Normal (r', next') →
  numbered_from next next' [r'].
Proof.
  intros Hnone. unfold convertRule at 1. unfold bind at 1.
  destruct (convertMatch_cases (default JUndefined (r !! "match")) next)
    as [(s & _ & _ & _ & ->) | [(s & _ & _ & _ & ->) | (Hlit & ->)]];
    [done | |]; intros [= <- <-];
    unfold numbered_from, regexps, match_regexp; simpl;
    rewrite lookup_insert_eq.
  - simpl. replace (S next - next) with 1 by lia.
    split_and!; [done | lia | by repeat constructor].
  - unfold match_regexp in Hnone.
    destruct (r !! "match") as [m|]; simpl;
      [destruct m; try done | ]; rewrite Nat.sub_diag;
      split_and!; simpl; (done || lia || constructor).
Qed.

Lemma regexps_cons_nil (r : rule_object) (l : list rule_object) :
  regexps (r :: l) = [] → match_regexp r = None ∧ regexps l = [].
Proof. unfold regexps. simpl. by destruct (match_regexp r). Qed.

Lemma map_array_numbered (l l' : list rule_object) (next next' : nat) :
  regexps l = [] →
  map_array convertRule l next = Normal (l', next') →
  numbered_from next next' l'.
Proof.
  revert l' next next'. induction l as [|r l IH]; intros l' next next' Hnone; simpl.
  - intros [= <- <-]. apply numbered_from_nil.
  - apply regexps_cons_nil in Hnone as [Hr Hl]. unfold bind at 1.
    destruct (convertRule r next) as [[r1 n1]|e] eqn:Hcr; [|done].
    unfold bind at 1.
    destruct (map_array convertRule l n1) as [[l1 n2]|e] eqn:Hcl; [|done].
    intros [= <- <-].
    apply (numbered_from_app next n1 n2 [r1] l1).
    + by eapply convertRule_numbered.
    + by eapply IH.
Qed.

Lemma convertRules_numbered (a a' : option (list rule_object))
    (next next' : nat) :
  regexps (default [] a) = [] →
  convertRules a next = Normal (a', next') →
  numbered_from next next' (default [] a').
Proof.
  destruct a as [l|]; simpl; intros Hnone.
  - unfold bind.
    destruct (map_array convertRule l next) as [[l1 n1]|e] eqn:Hl; [|done].
    intros [= <- <-]. by eapply map_array_numbered.
  - intros [= <- <-]. apply numbered_from_nil.
Qed.

(** X11. Loading a configuration that holds no expression yet (as one
    read from JSON does) creates one new object per converted rule,
    numbered consecutively in rule order: no two rules share an
    expression, and every expression has the flag [i] alone, so none is
    global or sticky. *)
Theorem parseJsonConfig_fresh_regexps (parsed result : VeilConfig)
    (next next' : nat) :
  regexps (all_rules parsed) = [] →
  parseJsonConfig parsed next = Normal (result, next') →
  map re_id (regexps (all_rules result)) = seq next (next' - next) ∧
  NoDup (map re_id (regexps (all_rules result))) ∧
  Forall (λ re, flags re = flags_i ∧ stateful (flags re) = false)
    (regexps (all_rules result)).
Proof.
  unfold all_rules at 1, regexps at 1. rewrite !omap_app.
  intros (Hf & (He & Hc)%app_eq_nil)%app_eq_nil.
  unfold parseJsonConfig. unfold bind at 1.
  destruct (convertRules (fileRules parsed) next) as [[f n1]|e] eqn:Hcf; [|done].
  unfold bind at 1.
  destruct (convertRules (envRules parsed) n1) as [[e n2]|e] eqn:Hce; [|done].
  unfold bind at 1.
  destruct (convertRules (cliRules parsed) n2) as [[c n3]|e'] eqn:Hcc; [|done].
  intros [= <- <-].
  assert (numbered_from next n3 (all_rules
            {| fileRules := f; envRules := e; cliRules := c |}))
    as (Hids & Hle & Hflags).
  { unfold all_rules. simpl.
    apply (numbered_from_app next n1 n3);
      [exact (convertRules_numbered _ _ _ _ Hf Hcf)|].
    apply (numbered_from_app n1 n2 n3);
      [exact (convertRules_numbered _ _ _ _ He Hce)
      |exact (convertRules_numbered _ _ _ _ Hc Hcc)]. }
  split_and!; [done | rewrite Hids; apply NoDup_seq |].
  eapply Forall_impl; [exact Hflags|]. intros re ->. done.
Qed.

End Loader.

Lemma parseJsonConfig_fresh_regexps_witness :
  regexps (all_rules Examples.sample_config) = [] ∧
  ∃ result next',
    parseJsonConfig (H:=Fragment.engine) Examples.sample_config 0
    = Normal (result, next') ∧
    map re_id (regexps (all_rules result)) = seq 0 (next' - 0) ∧
    NoDup (map re_id (regexps (all_rules result))) ∧
    Forall (λ re, flags re = flags_i ∧ stateful (flags re) = false)
      (regexps (all_rules result)).
Proof.
  split; [by vm_compute|].
  eexists _, _. split; [by vm_compute|].
  eapply (parseJsonConfig_fresh_regexps (H:=Fragment.engine)
            Examples.sample_config _ 0); by vm_compute.
Defined.


End LoaderExtras.

(** ** Packs, categories and the convenience builders *)
Module CategoryExtras.
Import JS Categories CategoryHelpers CategoriesFacts.
Local Open Scope nat_scope.

Lemma own_property_elem (packs : list (string * RulePack)) (key : string)
    (pack : RulePack) :
  own_property packs key = Some pack → key ∈ packs.*1.
Proof.
  induction packs as [|[k p] packs IH]; simpl; [done|].
  destruct (String.eqb_spec k key) as [->|Hne].
  - intros _. apply list_elem_of_here.
  - intros Hfound. apply list_elem_of_further. auto.
Qed.

Lemma elem_own_property (packs : list (string * RulePack)) (key : string) :
  key ∈ packs.*1 → is_Some (own_property packs key).
Proof.
  induction packs as [|[k p] packs IH]; simpl; [by intros ?%elem_of_nil|].
  destruct (String.eqb_spec k key) as [->|Hne]; [by eexists|].
  intros [?|?]%elem_of_cons; [congruence | auto].
Qed.

Lemma known_pack_listPacks (n : string) : known_pack n ↔ n ∈ listPacks.
Proof.
  split.
  - intros [pack Hpack]. by eapply own_property_elem.
  - apply elem_own_property.
Qed.

(** No pack is named after a member of [Object.prototype]. *)
Lemma listPacks_off_prototype :
  Forall (λ n, n ∉ Object_prototype_properties) listPacks.
Proof. apply (bool_decide_unpack _). by vm_compute. Qed.

Lemma RULE_PACKS_get_prototype (n : string) :
  RULE_PACKS_get n = PrototypeMember ↔ n ∈ Object_prototype_properties.
Proof.
  unfold RULE_PACKS_get.
  destruct (own_property RULE_PACKS n) as [pack|] eqn:Hown.
  - split; [done|]. intros Hin. exfalso.
    apply own_property_elem in Hown.
    by apply (proj1 (Forall_forall _ _) listPacks_off_prototype n Hown).
  - case_bool_decide; split; done.
Qed.

Lemma off_prototype_get (packNames : list string) :
  Forall (λ n, n ∉ Object_prototype_properties) packNames →
  Forall (λ n, RULE_PACKS_get n ≠ PrototypeMember) packNames.
Proof.
  intros Hoff. eapply Forall_impl; [exact Hoff|].
  intros n Hn. by rewrite RULE_PACKS_get_prototype.
Qed.

Lemma pack_rules_unknown (n : string) : ¬ known_pack n → pack_rules n = [].
Proof.
  unfold known_pack, pack_rules. destruct (own_property RULE_PACKS n); [|done].
  intros Hnot. exfalso. apply Hnot. by eexists.
Qed.

Lemma unknown_warnings_filter (packNames : list string) :
  Forall (λ n, n ∉ Object_prototype_properties) packNames →
  unknown_warnings packNames
  = (λ n, "Unknown rule pack: " +:+ n) <$> filter (λ n, ¬ known_pack n) packNames.
Proof.
  unfold unknown_warnings.
  induction 1 as [|n packNames Hn _ IH]; [done|].
  cbn [omap list_omap]. rewrite filter_cons.
  pose proof (RULE_PACKS_get_prototype n) as Hproto.
  unfold RULE_PACKS_get, known_pack in *.
  destruct (own_property RULE_PACKS n) as [pack|].
  - rewrite decide_False by (intros Hnot; apply Hnot; by eexists). apply IH.
  - case_bool_decide; [done|].
    rewrite decide_True by (by intros [? ?]). by rewrite fmap_cons, IH.
Qed.

(** X12. For pack names none of which is a member of [Object.prototype],
    [fromPacks] returns normally: the configuration maps to ["error"]
    exactly the rule ids of the known packs named and holds nothing else,
    and [console.warn] receives one line per name that is not a pack, in
    the order of the arguments. *)
Theorem fromPacks_known_and_unknown (packNames : list string) :
  Forall (λ n, n ∉ Object_prototype_properties) packNames →
  ∃ config,
    fromPacks packNames
    = (Normal config,
       (λ n, "Unknown rule pack: " +:+ n)
         <$> filter (λ n, ¬ known_pack n) packNames) ∧
    (∀ id, is_Some (config !! id) ↔
           ∃ n, n ∈ packNames ∧ known_pack n ∧ id ∈ pack_rules n) ∧
    (∀ id rc, config !! id = Some rc → rc = Severity error).
Proof.
  intros Hoff.
  destruct (fromPacks_entries packNames (off_prototype_get _ Hoff))
    as (config & Hrun & Hlookup).
  exists config. split_and!.
  - by rewrite Hrun, unknown_warnings_filter.
  - intros id. rewrite Hlookup. case_bool_decide as Hex.
    + split; [|by eexists]. intros _.
      apply Exists_exists in Hex as (n & Hn & Hid). exists n. split_and!; try done.
      destruct (decide (known_pack n)) as [Hk|Hk]; [done|].
      rewrite (pack_rules_unknown n Hk) in Hid. by apply elem_of_nil in Hid.
    + split; [by intros [? ?]|]. intros (n & Hn & _ & Hid).
      exfalso. apply Hex, Exists_exists. by exists n.
  - intros id rc. rewrite Hlookup. by case_bool_decide; intros [= <-].
Qed.

Lemma fromPacks_known_and_unknown_witness :
  Forall (λ n, n ∉ Object_prototype_properties) ["nope"; "minimal"] ∧
  ∃ config,
    fromPacks ["nope"; "minimal"]
    = (Normal config,
       (λ n, "Unknown rule pack: " +:+ n)
         <$> filter (λ n, ¬ known_pack n) ["nope"; "minimal"]) ∧
    (∀ id, is_Some (config !! id) ↔
           ∃ n, n ∈ ["nope"; "minimal"] ∧ known_pack n ∧ id ∈ pack_rules n) ∧
    (∀ id rc, config !! id = Some rc → rc = Severity error).
Proof.
  assert (Forall (λ n, n ∉ Object_prototype_properties) ["nope"; "minimal"])
    as Hoff by (apply (bool_decide_unpack _); by vm_compute).
  split; [exact Hoff|]. exact (fromPacks_known_and_unknown _ Hoff).
Defined.

(** X13. [fromPacks] throws exactly when one of the names is a member of
    [Object.prototype], and what it throws is a [TypeError]. *)
Theorem fromPacks_throws_iff (packNames : list string) :
  ∀ e, (fromPacks packNames).1 = Throw e ↔
       e = TypeError ∧ Exists (λ n, n ∈ Object_prototype_properties) packNames.
Proof.
  intros e.
  destruct (decide (Exists (λ n, n ∈ Object_prototype_properties) packNames))
    as [Hex|Hnex].
  - assert ((fromPacks packNames).1 = Throw TypeError) as Hthrow.
    { clear e. unfold fromPacks. generalize (∅ : gmap string RuleConfig).
      generalize (@nil string).
      induction packNames as [|n packNames IH]; intros warnings config;
        [by inversion Hex|].
      cbn [fromPacks_loop].
      destruct (RULE_PACKS_get n) eqn:Hget; [| done |];
        (apply IH; apply Exists_cons in Hex as [Hn|Hex]; [|done];
         apply RULE_PACKS_get_prototype in Hn; congruence). }
    rewrite Hthrow. split; [by intros [= <-] | by intros [-> _]].
  - apply not_Exists_Forall in Hnex; [|intros n; apply _].
    destruct (fromPacks_entries packNames) as (config & -> & _).
    { apply off_prototype_get. eapply Forall_impl; [exact Hnex|]. done. }
    simpl. split; [done|]. intros [_ Hex]. exfalso.
    apply Exists_exists in Hex as (n & Hn & Hproto).
    by apply (proj1 (Forall_forall _ _) Hnex n Hn).
Qed.

Lemma unknown_warnings_app (a b : list string) :
  unknown_warnings (a ++ b) = (unknown_warnings a ++ unknown_warnings b)%list.
Proof. unfold unknown_warnings. apply omap_app. Qed.

(** X14. Naming packs in one call or in two gives the same result: for
    names off [Object.prototype], the configuration of a concatenated
    argument list is the union of the two configurations, and its warnings
    are the two lists of warnings, one after the other. *)
Theorem fromPacks_app (names1 names2 : list string) :
  Forall (λ n, n ∉ Object_prototype_properties) names1 →
  Forall (λ n, n ∉ Object_prototype_properties) names2 →
  ∃ config1 config2 warnings1 warnings2,
    fromPacks names1 = (Normal config1, warnings1) ∧
    fromPacks names2 = (Normal config2, warnings2) ∧
    fromPacks (names1 ++ names2)
    = (Normal (config1 ∪ config2), (warnings1 ++ warnings2)%list).
Proof.
  intros Hoff1 Hoff2. unfold fromPacks.
  rewrite !fromPacks_loop_ok
    by (apply off_prototype_get; rewrite ?Forall_app; done).
  eexists _, _, _, _. split_and!; [reflexivity | reflexivity |].
  simpl. rewrite unknown_warnings_app. f_equal. f_equal.
  apply map_eq. intros ruleId.
  rewrite lookup_union, !lookup_set_packs, lookup_empty.
  destruct (decide (Exists (λ n, ruleId ∈ pack_rules n) names1)) as [H1|H1];
    destruct (decide (Exists (λ n, ruleId ∈ pack_rules n) names2)) as [H2|H2].
  - rewrite !bool_decide_eq_true_2; [done | done | done | apply Exists_app; by left].
  - rewrite (bool_decide_eq_false_2 _ H2), !bool_decide_eq_true_2;
      [done | done | apply Exists_app; by left].
  - rewrite (bool_decide_eq_false_2 _ H1), !bool_decide_eq_true_2;
      [done | done | apply Exists_app; by right].
  - rewrite !bool_decide_eq_false_2; [done | done | done |].
    by intros [?|?]%Exists_app.
Qed.

Lemma fromPacks_app_witness :
  Forall (λ n, n ∉ Object_prototype_properties) ["minimal"] ∧
  Forall (λ n, n ∉ Object_prototype_properties) ["nope"; "context:ci"] ∧
  ∃ config1 config2 warnings1 warnings2,
    fromPacks ["minimal"] = (Normal config1, warnings1) ∧
    fromPacks ["nope"; "context:ci"] = (Normal config2, warnings2) ∧
    fromPacks (["minimal"] ++ ["nope"; "context:ci"])
    = (Normal (config1 ∪ config2), (warnings1 ++ warnings2)%list).
Proof.
  assert (Forall (λ n, n ∉ Object_prototype_properties) ["minimal"])
    as Hoff1 by (apply (bool_decide_unpack _); by vm_compute).
  assert (Forall (λ n, n ∉ Object_prototype_properties) ["nope"; "context:ci"])
    as Hoff2 by (apply (bool_decide_unpack _); by vm_compute).
  split_and!; [exact Hoff1 | exact Hoff2 |].
  exact (fromPacks_app _ _ Hoff1 Hoff2).
Defined.

(** X15. The names [listPacks] returns are exactly the names [fromPacks]
    accepts without a warning and without throwing. *)
Theorem listPacks_accepted (n : string) :
  n ∈ listPacks ↔ ∃ config, fromPacks [n] = (Normal config, []).
Proof.
  rewrite <-known_pack_listPacks. unfold known_pack, fromPacks.
  cbn [fromPacks_loop]. unfold RULE_PACKS_get.
  destruct (own_property RULE_PACKS n) as [pack|].
  - split; [by eexists | by eexists].
  - case_bool_decide.
    + split; [by intros [? ?] | by intros [? ?]].
    + split; [by intros [? ?] | by intros [? ?]].
Qed.

Lemma platform_pack_known (platform : string) :
  known_pack (platform_pack platform).
Proof.
  unfold platform_pack.
  destruct (String.eqb platform "win32"); [by eexists|].
  destruct (String.eqb platform "darwin"); by eexists.
Qed.

Lemma fromPacks_three_known (a b c : string) :
  known_pack a → known_pack b → known_pack c →
  ∃ config,
    fromPacks [a; b; c] = (Normal config, []) ∧
    (∀ ruleId, is_Some (config !! ruleId) ↔
               ruleId ∈ pack_rules a ∨ ruleId ∈ pack_rules b
               ∨ ruleId ∈ pack_rules c) ∧
    (∀ ruleId rc, config !! ruleId = Some rc → rc = Severity error).
Proof.
  intros Ha Hb Hc. eexists. split_and!.
  - apply fromPacks_known. by repeat constructor.
  - intros ruleId. rewrite lookup_set_packs, lookup_empty.
    case_bool_decide as Hex; rewrite !Exists_cons, Exists_nil in Hex.
    + split; [tauto | by eexists].
    + split; [by intros [? ?] | tauto].
  - intros ruleId rc. rewrite lookup_set_packs, lookup_empty.
    by case_bool_decide; intros [= <-].
Qed.

(** X16. On every platform [recommended] returns normally and without a
    warning: every pack it names exists. Its configuration holds, all at
    ["error"], exactly the rules of [security:recommended], of
    [context:dev] and of the platform's pack, which is the Windows pack on
    [win32], the macOS pack on [darwin] and the Linux pack on every other
    platform. *)
Theorem recommended_entries (platform : string) :
  ∃ config,
    recommended platform = (Normal config, []) ∧
    (∀ ruleId, is_Some (config !! ruleId) ↔
               ruleId ∈ pack_rules "security:recommended"
               ∨ ruleId ∈ pack_rules "context:dev"
               ∨ ruleId ∈ pack_rules (platform_pack platform)) ∧
    (∀ ruleId rc, config !! ruleId = Some rc → rc = Severity error) ∧
    (platform ≠ "win32" → platform ≠ "darwin" →
     platform_pack platform = "platform:linux").
Proof.
  destruct (fromPacks_three_known "security:recommended" "context:dev"
              (platform_pack platform)) as (config & Hrun & Hdom & Herr);
    [by eexists | by eexists | apply platform_pack_known |].
  exists config. split_and!; try done.
  unfold platform_pack. intros Hw%String.eqb_neq Hd%String.eqb_neq.
  by rewrite Hw, Hd.
Qed.

(** The three rules of [context:dev] that no pack of [strict] has. *)
Lemma dev_only_rules (platform : string) (ruleId : string) :
  ruleId ∈ ["fs/hide-node-modules"; "fs/hide-vcs"; "fs/hide-build-output"] →
  (ruleId ∉ pack_rules "security:strict") ∧
  (ruleId ∉ pack_rules "context:production") ∧
  (ruleId ∉ pack_rules (platform_pack platform)).
Proof.
  intros Hin.
  assert (∀ n, n ∈ ["security:strict"; "context:production";
                    "platform:windows"; "platform:darwin"; "platform:linux"] →
               ruleId ∉ pack_rules n) as Hnone.
  { intros n Hn. revert ruleId Hin. apply Forall_forall. revert n Hn.
    apply Forall_forall. apply (bool_decide_unpack _). by vm_compute. }
  split_and!.
  - apply Hnone. apply list_elem_of_here.
  - apply Hnone. do 1 apply list_elem_of_further. apply list_elem_of_here.
  - apply Hnone. unfold platform_pack.
    destruct (String.eqb platform "win32");
      [do 2 apply list_elem_of_further; apply list_elem_of_here|].
    destruct (String.eqb platform "darwin");
      [do 3 apply list_elem_of_further | do 4 apply list_elem_of_further];
      apply list_elem_of_here.
Qed.

(** X17. On every platform [strict] returns normally and without a
    warning, with every entry at ["error"]. It enables every rule
    [recommended] enables on that platform except three, which it leaves
    out: [fs/hide-node-modules], [fs/hide-vcs] and
    [fs/hide-build-output]. *)
Theorem strict_versus_recommended (platform : string) :
  ∃ strictConfig recommendedConfig,
    strict platform = (Normal strictConfig, []) ∧
    recommended platform = (Normal recommendedConfig, []) ∧
    (∀ ruleId rc, strictConfig !! ruleId = Some rc → rc = Severity error) ∧
    (∀ ruleId,
       is_Some (recommendedConfig !! ruleId) →
       ruleId ∉ ["fs/hide-node-modules"; "fs/hide-vcs"; "fs/hide-build-output"] →
       is_Some (strictConfig !! ruleId)) ∧
    (∀ ruleId,
       ruleId ∈ ["fs/hide-node-modules"; "fs/hide-vcs"; "fs/hide-build-output"] →
       is_Some (recommendedConfig !! ruleId) ∧ strictConfig !! ruleId = None).
Proof.
  destruct (fromPacks_three_known "security:strict" "context:production"
              (platform_pack platform)) as (sc & Hs & Hsdom & Hserr);
    [by eexists | by eexists | apply platform_pack_known |].
  destruct (fromPacks_three_known "security:recommended" "context:dev"
              (platform_pack platform)) as (rc & Hr & Hrdom & _);
    [by eexists | by eexists | apply platform_pack_known |].
  exists sc, rc. split_and!; try done.
  - intros ruleId Hin Hnot. apply Hsdom. apply Hrdom in Hin as [Hin|[Hin|Hin]].
    + left.
      assert (Forall (λ r, r ∈ pack_rules "security:strict")
                (pack_rules "security:recommended")) as Hsub
        by (apply (bool_decide_unpack _); by vm_compute).
      by apply (proj1 (Forall_forall _ _) Hsub).
    + assert (Forall (λ r, r ∈ pack_rules "security:strict"
                        ∨ r ∈ ["fs/hide-node-modules"; "fs/hide-vcs";
                               "fs/hide-build-output"])
                (pack_rules "context:dev")) as Hsub
        by (apply (bool_decide_unpack _); by vm_compute).
      destruct (proj1 (Forall_forall _ _) Hsub ruleId Hin) as [?|?];
        [by left | done].
    + by right; right.
  - intros ruleId Hin. split.
    + apply Hrdom. right. left. revert Hin.
      assert (Forall (λ r, r ∈ pack_rules "context:dev")
                ["fs/hide-node-modules"; "fs/hide-vcs"; "fs/hide-build-output"])
        as Hsub by (apply (bool_decide_unpack _); by vm_compute).
      apply (proj1 (Forall_forall _ _) Hsub).
    + apply eq_None_not_Some. rewrite Hsdom.
      destruct (dev_only_rules platform ruleId Hin) as (? & ? & ?). tauto.
Qed.

Lemma fromCategory_fold (registry : list VeilRule) (category : string)
    (sev : RuleSeverity) (init : gmap string RuleConfig) (ruleId : string) :
  foldl (λ config rule,
           if String.eqb (category_name (CategoryHelpers.category rule)) category
           then object_set config (CategoryHelpers.id rule) (Severity sev)
           else config)
        init registry !! ruleId
  = if bool_decide
         (ruleId ≠ "__proto__" ∧
          Exists (λ rule, CategoryHelpers.id rule = ruleId ∧
                          category_name (CategoryHelpers.category rule) = category)
            registry)
    then Some (Severity sev) else init !! ruleId.
Proof.
  revert init. induction registry as [|rule registry IH]; intros init.
  - simpl. rewrite bool_decide_eq_false_2; [done|]. by intros [_ ?%Exists_nil].
  - cbn [foldl]. rewrite IH. clear IH.
    destruct (decide (ruleId ≠ "__proto__" ∧
                      Exists (λ rule, CategoryHelpers.id rule = ruleId ∧
                                category_name (CategoryHelpers.category rule)
                                = category) registry)) as [Hrest|Hrest].
    + rewrite !bool_decide_eq_true_2; [done | | done].
      destruct Hrest as [? ?]. split; [done | by apply Exists_cons_tl].
    + rewrite (bool_decide_eq_false_2 _ Hrest).
      destruct (String.eqb_spec
                  (category_name (CategoryHelpers.category rule)) category)
        as [Hcat|Hcat].
      * unfold object_set.
        destruct (String.eqb_spec (CategoryHelpers.id rule) "__proto__")
          as [Hproto|Hproto].
        -- rewrite bool_decide_eq_false_2; [done|].
           intros [Hne [[Hid _]|Hex]%Exists_cons]; [congruence | tauto].
        -- destruct (decide (CategoryHelpers.id rule = ruleId)) as [Hid|Hid].
           ++ rewrite <-Hid, lookup_insert_eq, bool_decide_eq_true_2; [done|].
              split; [done | by apply Exists_cons_hd].
           ++ rewrite lookup_insert_ne by done.
              rewrite bool_decide_eq_false_2; [done|].
              intros [Hne [[? _]|Hex]%Exists_cons]; [done | tauto].
      * rewrite bool_decide_eq_false_2; [done|].
        intros [Hne [[_ ?]|Hex]%Exists_cons]; [done | tauto].
Qed.

(** X18. [fromCategory] returns the configuration whose keys are the ids
    of the registered rules of the category, every one at the severity
    asked for (["error"] when none is given). An id [__proto__] is never
    stored; a category string that names no category gives the empty
    configuration; every key is among the ids [listRules] returns. *)
Theorem fromCategory_entries (registry : list VeilRule) (category : string)
    (severity : option RuleSeverity) :
  (∀ ruleId,
     is_Some (fromCategory registry category severity !! ruleId) ↔
     ruleId ≠ "__proto__" ∧
     ∃ rule, rule ∈ registry ∧ CategoryHelpers.id rule = ruleId ∧
             category_name (CategoryHelpers.category rule) = category)
  ∧ (∀ ruleId rc,
       fromCategory registry category severity !! ruleId = Some rc →
       rc = Severity (default error severity))
  ∧ (∀ ruleId,
       is_Some (fromCategory registry category severity !! ruleId) →
       ruleId ∈ listRules registry)
  ∧ ((∀ c, category_name c ≠ category) →
     fromCategory registry category severity = ∅).
Proof.
  assert (∀ ruleId,
            is_Some (fromCategory registry category severity !! ruleId) ↔
            ruleId ≠ "__proto__" ∧
            ∃ rule, rule ∈ registry ∧ CategoryHelpers.id rule = ruleId ∧
                    category_name (CategoryHelpers.category rule) = category)
    as Hdom.
  { intros ruleId. unfold fromCategory.
    rewrite fromCategory_fold, lookup_empty, <-Exists_exists.
    case_bool_decide; split; [done | by eexists | by intros [? ?] | done]. }
  split_and!; [done | | |].
  - intros ruleId rc. unfold fromCategory.
    rewrite fromCategory_fold, lookup_empty. by case_bool_decide; intros [= <-].
  - intros ruleId (_ & rule & Hin & <- & _)%Hdom.
    unfold listRules. apply list_elem_of_fmap. by exists rule.
  - intros Hnone. apply map_eq. intros ruleId. rewrite lookup_empty.
    apply eq_None_not_Some. intros (_ & rule & _ & _ & Hcat)%Hdom.
    by apply (Hnone (CategoryHelpers.category rule)).
Qed.

End CategoryExtras.

(** ** Shell wrapper blocks *)
Module ShellExtras.
Import JS JSString ShellUtils JSFacts JSStringFacts MaskExtras.
Local Open Scope nat_scope.

(** *** Occurrences and separators *)

(** A pattern without the character [x] that starts at the head of
    [u x v] lies within [u]. *)
Lemma startsWith_sep (u v p : string) (x : ascii) :
  has_char x p = false →
  startsWith (u +:+ String x v) p = true → startsWith u p = true.
Proof.
  revert u. induction p as [|a p IH]; intros u Hx; [done|].
  simpl in Hx. apply orb_false_iff in Hx as [Hxa Hxp].
  destruct u as [|c u]; rewrite ?append_empty, ?append_cons; simpl.
  - rewrite Ascii.eqb_sym, Hxa. done.
  - destruct (Ascii.eqb a c); [by apply IH | done].
Qed.

Lemma includes_cons_false (c : ascii) (s p : string) :
  includes (String c s) p = false →
  startsWith (String c s) p = false ∧ includes s p = false.
Proof. simpl. by intros ?%orb_false_iff. Qed.

(** A pattern without [x] that does not occur in [c] occurs in [c x b]
    only inside [b]. *)
Lemma indexOf_sep (c b p : string) (x : ascii) :
  has_char x p = false → includes c p = false →
  indexOf (c +:+ String x b) p
  = (λ i, S (String.length c + i)) <$> indexOf b p.
Proof.
  intros Hx. induction c as [|a c IH]; intros Hc.
  - rewrite append_empty. cbn [indexOf].
    destruct (startsWith (String x b) p) eqn:Hstart.
    + apply (startsWith_sep EmptyString b p x Hx) in Hstart.
      simpl in Hc. rewrite Hstart in Hc. done.
    + by destruct (indexOf b p).
  - apply includes_cons_false in Hc as [Hhead Hc].
    rewrite append_cons. cbn [indexOf].
    destruct (startsWith (String a (c +:+ String x b)) p) eqn:Hstart.
    + rewrite <-append_cons in Hstart.
      apply (startsWith_sep _ b p x Hx) in Hstart. congruence.
    + rewrite (IH Hc). by destruct (indexOf b p).
Qed.

Lemma indexOf_startsWith (s p : string) :
  startsWith s p = true → indexOf s p = Some 0.
Proof. intros Hs. destruct s; simpl; by rewrite Hs. Qed.

(** A pattern whose third character [x] differs from its first two, put
    after a text [u] without [x], is first found right after [u]. *)
Lemma indexOf_third_char (u q t : string) (c0 c1 x : ascii) :
  x ≠ c0 → x ≠ c1 → has_char x u = false →
  indexOf (u +:+ String c0 (String c1 (String x q)) +:+ t)
          (String c0 (String c1 (String x q)))
  = Some (String.length u).
Proof.
  intros H0 H1. induction u as [|a u IH]; intros Hu.
  - rewrite append_empty. apply indexOf_startsWith, startsWith_append.
  - simpl in Hu. apply orb_false_iff in Hu as [Hxa Hu].
    rewrite append_cons. cbn [indexOf]. rewrite (IH Hu).
    replace (startsWith _ _) with false; [done|]. symmetry.
    cbn [startsWith]. destruct (Ascii.eqb c0 a); [|done].
    destruct u as [|b u]; rewrite ?append_empty, ?append_cons.
    + destruct (Ascii.eqb c1 c0); [|done].
      by rewrite (proj2 (Ascii.eqb_neq x c1) H1).
    + destruct (Ascii.eqb c1 b); [|done].
      simpl in Hu. apply orb_false_iff in Hu as [Hxb Hu].
      destruct u as [|d u]; rewrite ?append_empty, ?append_cons.
      * by rewrite (proj2 (Ascii.eqb_neq x c0) H0).
      * simpl in Hu. apply orb_false_iff in Hu as [Hxd Hu]. by rewrite Hxd.
Qed.

(** *** Trimming *)

Lemma trimEnd_append_whitespace (a w : string) :
  trimEnd w = EmptyString → trimEnd (a +:+ w) = trimEnd a.
Proof.
  intros Hw. induction a as [|c a IH]; [done|].
  rewrite append_cons. simpl. by rewrite IH.
Qed.

Lemma trimEnd_idempotent (s : string) : trimEnd (trimEnd s) = trimEnd s.
Proof.
  induction s as [|c s IH]; [done|]. simpl.
  destruct (trimEnd s) as [|d t] eqn:Ht.
  - destruct (is_whitespace c) eqn:Hc; [done|]. simpl. by rewrite Hc.
  - simpl in *. by rewrite IH.
Qed.

(** What [trimEnd] removes is a suffix. *)
Lemma trimEnd_prefix (s : string) :
  ∃ w, s = trimEnd s +:+ w ∧ trimEnd w = EmptyString.
Proof.
  induction s as [|c s (w & Hs & Hw)].
  - by exists EmptyString.
  - simpl. destruct (trimEnd s) as [|d t] eqn:Ht.
    + destruct (is_whitespace c) eqn:Hc.
      * exists (String c s). split; [done|]. simpl. by rewrite Ht, Hc.
      * exists w. split; [|done]. rewrite append_cons, append_empty.
        by rewrite append_empty in Hs; subst.
    + exists w. split; [|done]. rewrite append_cons. by rewrite <-Hs.
Qed.

Lemma includes_trimEnd_false (s p : string) :
  includes s p = false → includes (trimEnd s) p = false.
Proof.
  intros Hs. destruct (includes (trimEnd s) p) eqn:Ht; [|done].
  destruct (trimEnd_prefix s) as (w & Heq & _).
  rewrite Heq, (includes_append_l _ w _ Ht) in Hs. done.
Qed.


(** *** Removing a block *)

Lemma marker_end_shape :
  SHELL_MARKER_END
  = String "#" (String " " (String "<" "<< veil shell wrapper <<<")).
Proof. reflexivity. Qed.

Lemma nl_cons (s : string) : nl +:+ s = String (ascii_of_nat 10) s.
Proof. reflexivity. Qed.

Lemma length_nl : String.length nl = 1.
Proof. reflexivity. Qed.

Lemma block_indexOf_start (pre rest : string) :
  includes pre SHELL_MARKER_START = false →
  (pre = EmptyString ∨ ∃ pre', pre = pre' +:+ nl) →
  indexOf (pre +:+ SHELL_MARKER_START +:+ rest) SHELL_MARKER_START
  = Some (String.length pre).
Proof.
  intros Hpre [->|[pre' ->]].
  - rewrite append_empty. apply indexOf_startsWith, startsWith_append.
  - rewrite append_assoc, nl_cons, indexOf_sep; [| done |].
    + rewrite (indexOf_startsWith _ _ (startsWith_append _ _)).
      rewrite length_append, length_nl. simpl. f_equal. lia.
    + destruct (includes pre' SHELL_MARKER_START) eqn:Hin; [|done].
      by rewrite (includes_append_l _ nl _ Hin) in Hpre.
Qed.

Lemma block_indexOf_end (pre mid post : string) :
  includes pre SHELL_MARKER_END = false →
  (pre = EmptyString ∨ ∃ pre', pre = pre' +:+ nl) →
  has_char "<" mid = false →
  indexOf (pre +:+ SHELL_MARKER_START +:+ mid +:+ SHELL_MARKER_END +:+ post)
          SHELL_MARKER_END
  = Some (String.length pre + String.length (SHELL_MARKER_START +:+ mid)).
Proof.
  intros Hpre Hshape Hmid.
  assert (indexOf ((SHELL_MARKER_START +:+ mid) +:+ SHELL_MARKER_END +:+ post)
            SHELL_MARKER_END
          = Some (String.length (SHELL_MARKER_START +:+ mid))) as Hblock.
  { rewrite marker_end_shape. apply indexOf_third_char; [done | done |].
    by rewrite has_char_append, Hmid. }
  rewrite append_assoc in Hblock.
  destruct Hshape as [->|[pre' ->]].
  - by rewrite append_empty.
  - rewrite append_assoc, nl_cons, indexOf_sep; [| done |].
    + rewrite Hblock. rewrite (length_append pre'), length_nl. simpl. f_equal. lia.
    + destruct (includes pre' SHELL_MARKER_END) eqn:Hin; [|done].
      by rewrite (includes_append_l _ nl _ Hin) in Hpre.
Qed.

Lemma cut_block (pre mid post : string) :
  includes pre SHELL_MARKER_START = false →
  includes pre SHELL_MARKER_END = false →
  (pre = EmptyString ∨ ∃ pre', pre = pre' +:+ nl) →
  has_char "<" mid = false →
  removeWrapperFromContent
    (pre +:+ SHELL_MARKER_START +:+ mid +:+ SHELL_MARKER_END +:+ post)
  = {| modified :=
         trimEnd pre
         +:+ (if truthy (trimStart post)
              then nl +:+ nl +:+ trimStart post else nl);
       found := true |}.
Proof.
  intros Hstart Hend Hshape Hmid.
  unfold removeWrapperFromContent.
  change PS_SHELL_MARKER_START with SHELL_MARKER_START.
  change PS_SHELL_MARKER_END with SHELL_MARKER_END.
  rewrite (includes_self_append pre SHELL_MARKER_START).
  cbn [negb andb].
  replace (includes _ SHELL_MARKER_END) with true.
  2:{ symmetry. rewrite <-!append_assoc. rewrite append_assoc.
      apply includes_self_append. }
  rewrite block_indexOf_start, block_indexOf_end by done.
  rewrite slice_to_append.
  replace (slice_from _ _) with post; [done|]. symmetry.
  replace (pre +:+ SHELL_MARKER_START +:+ mid +:+ SHELL_MARKER_END +:+ post)
    with ((pre +:+ (SHELL_MARKER_START +:+ mid) +:+ SHELL_MARKER_END) +:+ post)
    by (by rewrite !append_assoc).
  replace (String.length pre + String.length (SHELL_MARKER_START +:+ mid)
           + String.length SHELL_MARKER_END)
    with (String.length (pre +:+ (SHELL_MARKER_START +:+ mid)
                         +:+ SHELL_MARKER_END) + 0)
    by (rewrite !length_append; lia).
  by rewrite slice_from_append.
Qed.

(** X19. A wrapper block found at the start of the content or at the
    start of a line, with no marker before it and no [<] between its
    markers, is cut out: what stood before it is kept without its trailing
    white space, and what stood after it follows after one blank line,
    without its leading white space; when nothing stood after it the result
    ends with a line feed. *)
Theorem removeWrapperFromContent_block (pre mid post : string) :
  includes pre SHELL_MARKER_START = false →
  includes pre SHELL_MARKER_END = false →
  (pre = EmptyString ∨ ∃ pre', pre = pre' +:+ nl) →
  has_char "<" mid = false →
  removeWrapperFromContent
    (pre +:+ SHELL_MARKER_START +:+ mid +:+ SHELL_MARKER_END +:+ post)
  = {| modified :=
         trimEnd pre
         +:+ (if truthy (trimStart post)
              then nl +:+ nl +:+ trimStart post else nl);
       found := true |}.
Proof. exact (cut_block pre mid post). Qed.
Lemma removeWrapperFromContent_block_witness :
  removeWrapperFromContent
    (("# Before" +:+ nl +:+ nl) +:+ SHELL_MARKER_START
     +:+ (nl +:+ "wrapper content" +:+ nl) +:+ SHELL_MARKER_END
     +:+ (nl +:+ nl +:+ "# After"))
  = {| modified := "# Before" +:+ nl +:+ nl +:+ "# After"; found := true |}.
Proof.
  apply (removeWrapperFromContent_block ("# Before" +:+ nl +:+ nl)
           (nl +:+ "wrapper content" +:+ nl) (nl +:+ nl +:+ "# After")).
  - reflexivity.
  - reflexivity.
  - right. exists ("# Before" +:+ nl). reflexivity.
  - reflexivity.
Defined.

(** *** Generated wrappers *)

Lemma join_cons_cons (sep a b : string) (l : list string) :
  join sep (a :: b :: l) = a +:+ sep +:+ join sep (b :: l).
Proof. reflexivity. Qed.

Lemma has_char_join (x : ascii) (sep : string) (l : list string) :
  has_char x sep = false →
  Forall (λ s, has_char x s = false) l →
  has_char x (join sep l) = false.
Proof.
  intros Hsep Hl. induction Hl as [|a l Ha Hl IH]; [done|].
  destruct l as [|b l]; [done|].
  by rewrite join_cons_cons, !has_char_append, Ha, Hsep, IH.
Qed.

Lemma has_char_bash_function (cmd : string) :
  has_char "<" cmd = false → has_char "<" (bash_function cmd) = false.
Proof.
  intros Hcmd. unfold bash_function. by rewrite !has_char_append, !Hcmd.
Qed.

Lemma has_char_powershell_function (cmd : string) :
  has_char "<" cmd = false → has_char "<" (powershell_function cmd) = false.
Proof.
  intros Hcmd. unfold powershell_function. by rewrite !has_char_append, !Hcmd.
Qed.

(** Between its markers a generated wrapper has no [<], unless a command
    name brings one. *)
Lemma wrapper_shape (commands : list string) (forceMode : bool)
    (shellType : ShellType) :
  ∃ mid,
    getShellWrapper commands forceMode shellType
    = SHELL_MARKER_START +:+ mid +:+ SHELL_MARKER_END ∧
    (Forall (λ cmd, has_char "<" cmd = false) commands →
     has_char "<" mid = false).
Proof.
  assert (∀ functionOf,
            (∀ cmd, has_char "<" cmd = false →
                    has_char "<" (functionOf cmd) = false) →
            ∃ mid,
              wrapper_text SHELL_MARKER_START SHELL_MARKER_END forceMode
                (join (nl +:+ nl) (map functionOf commands))
              = SHELL_MARKER_START +:+ mid +:+ SHELL_MARKER_END ∧
              (Forall (λ cmd, has_char "<" cmd = false) commands →
               has_char "<" mid = false)) as Hshape.
  { intros functionOf Hfunction.
    exists (nl
            +:+ "# Veil intercepts these commands to enforce security policies"
            +:+ nl +:+ "# See: https://github.com/Squad-Zero/veil" +:+ nl
            +:+ modeComment forceMode +:+ nl
            +:+ join (nl +:+ nl) (map functionOf commands) +:+ nl).
    split; [unfold wrapper_text; by rewrite !append_assoc|].
    intros Hcommands. rewrite !has_char_append.
    rewrite has_char_join; [by destruct forceMode | done |].
    apply Forall_fmap. eapply Forall_impl; [exact Hcommands|]. done. }
  destruct shellType; simpl;
    [apply (Hshape bash_function has_char_bash_function)
    |apply (Hshape bash_function has_char_bash_function)
    |apply (Hshape powershell_function has_char_powershell_function)
    |apply (Hshape bash_function has_char_bash_function)].
Qed.

(** X20. Content to which a generated wrapper was added is recognised as
    having a wrapper, whatever the content, the commands, the mode and the
    shell. *)
Theorem hasWrapperInstalled_after_add (content : string)
    (commands : list string) (forceMode : bool) (shellType : ShellType) :
  hasWrapperInstalled
    (addWrapperToContent content (getShellWrapper commands forceMode shellType))
  = true.
Proof.
  destruct (wrapper_shape commands forceMode shellType) as (mid & -> & _).
  unfold hasWrapperInstalled, addWrapperToContent. apply orb_true_iff. left.
  rewrite <-!(append_assoc (trimEnd content)), append_assoc.
  rewrite <-(append_assoc nl nl), <-(append_assoc (trimEnd content)).
  rewrite !append_assoc.
  replace (trimEnd content +:+ nl +:+ nl +:+ SHELL_MARKER_START +:+ mid
           +:+ SHELL_MARKER_END +:+ nl)
    with ((trimEnd content +:+ nl +:+ nl) +:+ SHELL_MARKER_START
          +:+ (mid +:+ SHELL_MARKER_END +:+ nl))
    by (by rewrite !append_assoc).
  apply includes_self_append.
Qed.

Lemma cut_added_wrapper (content : string) (commands : list string)
    (forceMode : bool) (shellType : ShellType) :
  includes content SHELL_MARKER_START = false →
  includes content SHELL_MARKER_END = false →
  Forall (λ cmd, has_char "<" cmd = false) commands →
  removeWrapperFromContent
    (addWrapperToContent content (getShellWrapper commands forceMode shellType))
  = {| modified := trimEnd content +:+ nl; found := true |}.
Proof.
  intros Hstart Hend Hcommands.
  destruct (wrapper_shape commands forceMode shellType) as (mid & -> & Hmid).
  unfold addWrapperToContent.
  replace (trimEnd content +:+ nl +:+ nl
           +:+ (SHELL_MARKER_START +:+ mid +:+ SHELL_MARKER_END) +:+ nl)
    with ((trimEnd content +:+ nl +:+ nl) +:+ SHELL_MARKER_START +:+ mid
          +:+ SHELL_MARKER_END +:+ nl)
    by (by rewrite !append_assoc).
  assert (∀ p, has_char (ascii_of_nat 10) p = false →
               includes nl p = false →
               includes content p = false →
               includes (trimEnd content +:+ nl +:+ nl) p = false) as Hpre.
  { intros p Hp Hnl Hcontent.
    apply indexOf_None. rewrite nl_cons, indexOf_sep;
      [| done | by apply includes_trimEnd_false].
    apply indexOf_None in Hnl. by rewrite Hnl. }
  rewrite cut_block; [| by apply Hpre | by apply Hpre | | by apply Hmid].
  - change (truthy (trimStart nl)) with false. cbv iota.
    rewrite (trimEnd_append_whitespace (trimEnd content) (nl +:+ nl)) by done.
    by rewrite trimEnd_idempotent.
  - right. exists (trimEnd content +:+ nl). by rewrite append_assoc.
Qed.

(** X21. Adding a generated wrapper and removing it again gives the
    content back, up to its trailing white space, which becomes one line
    feed: this holds when the content has neither marker and no command
    name has a [<]. *)
Theorem remove_after_add (content : string) (commands : list string)
    (forceMode : bool) (shellType : ShellType) :
  includes content SHELL_MARKER_START = false →
  includes content SHELL_MARKER_END = false →
  Forall (λ cmd, has_char "<" cmd = false) commands →
  removeWrapperFromContent
    (addWrapperToContent content (getShellWrapper commands forceMode shellType))
  = {| modified := trimEnd content +:+ nl; found := true |}.
Proof. exact (cut_added_wrapper content commands forceMode shellType). Qed.

Lemma remove_after_add_witness :
  removeWrapperFromContent
    (addWrapperToContent ("export PATH=/usr/bin  " +:+ nl)
       (getShellWrapper ["wrangler"; "npm"] false bash))
  = {| modified := trimEnd ("export PATH=/usr/bin  " +:+ nl) +:+ nl;
       found := true |}.
Proof.
  apply remove_after_add; [reflexivity | reflexivity |].
  repeat constructor.
Defined.

(** X22. Installing, uninstalling and installing again gives the same
    file as installing once. *)
Theorem add_after_remove_after_add (content : string)
    (commands : list string) (forceMode : bool) (shellType : ShellType) :
  includes content SHELL_MARKER_START = false →
  includes content SHELL_MARKER_END = false →
  Forall (λ cmd, has_char "<" cmd = false) commands →
  let wrapper := getShellWrapper commands forceMode shellType in
  addWrapperToContent
    (modified (removeWrapperFromContent (addWrapperToContent content wrapper)))
    wrapper
  = addWrapperToContent content wrapper.
Proof.
  intros Hstart Hend Hcommands wrapper. unfold wrapper.
  rewrite cut_added_wrapper by done. cbn [modified].
  unfold addWrapperToContent.
  rewrite (trimEnd_append_whitespace (trimEnd content) nl) by done.
  by rewrite trimEnd_idempotent.
Qed.

Lemma add_after_remove_after_add_witness :
  let wrapper := getShellWrapper ["wrangler"] true powershell in
  addWrapperToContent
    (modified (removeWrapperFromContent
                 (addWrapperToContent ("# profile" +:+ nl) wrapper)))
    wrapper
  = addWrapperToContent ("# profile" +:+ nl) wrapper.
Proof.
  apply add_after_remove_after_add; [reflexivity | reflexivity |].
  repeat constructor.
Defined.

(** X23. [removeWrapperFromContent] reports nothing found exactly when
    the content lacks the start marker or lacks the end marker, and then it
    returns the content untouched. *)
Theorem removeWrapperFromContent_not_found (content : string) :
  (found (removeWrapperFromContent content) = false ↔
   includes content SHELL_MARKER_START = false
   ∨ includes content SHELL_MARKER_END = false)
  ∧ (found (removeWrapperFromContent content) = false →
     modified (removeWrapperFromContent content) = content).
Proof.
  unfold removeWrapperFromContent.
  change PS_SHELL_MARKER_START with SHELL_MARKER_START.
  change PS_SHELL_MARKER_END with SHELL_MARKER_END.
  pose proof (indexOf_includes content SHELL_MARKER_START) as Hstart.
  pose proof (indexOf_includes content SHELL_MARKER_END) as Hend.
  destruct (includes content SHELL_MARKER_START); cbn [negb andb]; cbv zeta;
    [|split; [split; [by left | done] | done]].
  destruct (indexOf content SHELL_MARKER_START) as [startIdx|];
    [|by destruct (proj2 Hstart eq_refl)].
  destruct (includes content SHELL_MARKER_END).
  - destruct (indexOf content SHELL_MARKER_END) as [endIdx|];
      [|by destruct (proj2 Hend eq_refl)].
    cbn [found]. split; [split; [done | by intros [?|?]] | done].
  - destruct (indexOf content SHELL_MARKER_END) as [endIdx|].
    { by destruct Hend as [Hend _]; specialize (Hend (mk_is_Some _ _ eq_refl)). }
    cbn [found modified]. split; [split; [by right | done] | done].
Qed.

(** *** Commands and markers in a generated wrapper *)

Lemma includes_trans (s a p : string) :
  includes s a = true → includes a p = true → includes s p = true.
Proof.
  rewrite !includes_spec. intros (pre & post & ->) (pre' & post' & ->).
  exists (pre +:+ pre'), (post' +:+ post). by rewrite !append_assoc.
Qed.

Lemma includes_refl (s : string) : includes s s = true.
Proof.
  apply includes_spec. exists EmptyString, EmptyString. by rewrite append_nil_r.
Qed.

Lemma includes_join (sep a : string) (l : list string) :
  a ∈ l → includes (join sep l) a = true.
Proof.
  induction l as [|b l IH]; [by intros ?%elem_of_nil|].
  intros [->|Hin]%elem_of_cons.
  - destruct l as [|c l]; [apply includes_refl|].
    rewrite join_cons_cons. apply includes_append_l, includes_refl.
  - destruct l as [|c l]; [by apply elem_of_nil in Hin|].
    rewrite join_cons_cons. apply includes_append_r, includes_append_r. auto.
Qed.

Lemma wrapper_text_includes (markerStart markerEnd functions : string)
    (forceMode : bool) :
  includes (wrapper_text markerStart markerEnd forceMode functions) functions
  = true.
Proof.
  unfold wrapper_text. do 8 apply includes_append_r.
  apply includes_append_l, includes_refl.
Qed.

(** X24. Every command asked for gets its function in the generated
    wrapper: the bash wrapper holds the line that hands the command to
    [veil-wrap] with its arguments, the PowerShell wrapper the function
    header and the hand-over line; both wrappers begin with the start
    marker and end with the end marker, even for no command at all. *)
Theorem wrappers_cover_commands (commands : list string) (forceMode : bool) :
  (∀ cmd, cmd ∈ commands →
     includes (getBashWrapper commands forceMode)
       (nl +:+ "    veil-wrap " +:+ cmd +:+ " " +:+ dquote +:+ "$@" +:+ dquote
        +:+ nl) = true
     ∧ includes (getPowerShellWrapper commands forceMode)
         ("function " +:+ cmd +:+ " {" +:+ nl) = true
     ∧ includes (getPowerShellWrapper commands forceMode)
         (nl +:+ "    veil-wrap " +:+ cmd +:+ " @args" +:+ nl) = true)
  ∧ startsWith (getBashWrapper commands forceMode) SHELL_MARKER_START = true
  ∧ endsWith (getBashWrapper commands forceMode) SHELL_MARKER_END = true
  ∧ startsWith (getPowerShellWrapper commands forceMode) PS_SHELL_MARKER_START
    = true
  ∧ endsWith (getPowerShellWrapper commands forceMode) PS_SHELL_MARKER_END
    = true.
Proof.
  split_and!.
  - intros cmd Hin.
    assert (includes (getBashWrapper commands forceMode) (bash_function cmd)
            = true) as Hbash.
    { unfold getBashWrapper.
      eapply includes_trans; [apply wrapper_text_includes|].
      apply includes_join, list_elem_of_fmap. by exists cmd. }
    assert (includes (getPowerShellWrapper commands forceMode)
              (powershell_function cmd) = true) as Hps.
    { unfold getPowerShellWrapper.
      eapply includes_trans; [apply wrapper_text_includes|].
      apply includes_join, list_elem_of_fmap. by exists cmd. }
    split_and!.
    + eapply includes_trans; [exact Hbash|]. apply includes_spec.
      eexists (cmd +:+ "() {" +:+ nl
               +:+ "  if command -v veil-wrap >/dev/null 2>&1; then"), _.
      unfold bash_function. rewrite !append_assoc. reflexivity.
    + eapply includes_trans; [exact Hps|]. apply includes_spec.
      eexists EmptyString, _.
      unfold powershell_function. rewrite !append_assoc. reflexivity.
    + eapply includes_trans; [exact Hps|]. apply includes_spec.
      eexists ("function " +:+ cmd +:+ " {" +:+ nl
               +:+ "  if (Get-Command veil-wrap -ErrorAction SilentlyContinue) {"), _.
      unfold powershell_function. rewrite !append_assoc. reflexivity.
  - apply startsWith_append.
  - apply endsWith_spec. unfold getBashWrapper, wrapper_text.
    eexists. rewrite <-!append_assoc. reflexivity.
  - apply startsWith_append.
  - apply endsWith_spec. unfold getPowerShellWrapper, wrapper_text.
    eexists. rewrite <-!append_assoc. reflexivity.
Qed.

(** *** Detection of the shell from the profile paths *)

Lemma includes_sep (c b p : string) (x : ascii) :
  has_char x p = false →
  includes (c +:+ String x b) p = includes c p || includes b p.
Proof.
  intros Hx. destruct (includes c p) eqn:Hc.
  - by apply includes_append_l.
  - pose proof (indexOf_sep c b p x Hx Hc) as Hidx.
    pose proof (indexOf_includes (c +:+ String x b) p) as Hleft.
    pose proof (indexOf_includes b p) as Hright.
    rewrite Hidx, fmap_is_Some in Hleft. cbn [orb].
    destruct (includes (c +:+ String x b) p), (includes b p); try done.
    + by pose proof (proj1 Hright (proj2 Hleft eq_refl)).
    + by pose proof (proj1 Hleft (proj2 Hright eq_refl)).
Qed.

Lemma endsWith_append_long (a b p : string) :
  String.length p ≤ String.length b → endsWith (a +:+ b) p = endsWith b p.
Proof.
  intros Hlen. unfold endsWith. rewrite length_append.
  replace (String.length a + String.length b - String.length p)
    with (String.length a + (String.length b - String.length p)) by lia.
  by rewrite slice_from_append.
Qed.

Lemma detectShellFromPath_in_directory (dir file : string) :
  4 ≤ String.length file →
  detectShellFromPath (dir +:+ String "/" file)
  = if endsWith (String "/" file) ".ps1" then powershell
    else if (includes dir ".bashrc" || includes file ".bashrc")
            || (includes dir ".bash_profile" || includes file ".bash_profile")
    then bash
    else if includes dir ".zshrc" || includes file ".zshrc" then zsh
    else unknown.
Proof.
  intros Hlen. unfold detectShellFromPath.
  rewrite endsWith_append_long by (simpl; lia).
  by rewrite !includes_sep by reflexivity.
Qed.

(** X25. The shells detected from the profile paths that
    [getShellConfigPaths] lists, in order: the [.bashrc] and
    [.bash_profile] paths are always bash, the two PowerShell profiles
    (listed on win32 only) are always PowerShell, and the [.zshrc] path is
    zsh unless the home directory's own name contains [.bashrc] or
    [.bash_profile], in which case it is taken for bash.  No listed path is
    left undetected. *)
Theorem getShellConfigPaths_detected (env : gmap string string)
    (platform : string) :
  let home := default (default EmptyString (env !! "USERPROFILE"))
                (env !! "HOME") in
  detectShellFromPath <$> getShellConfigPaths env platform
  = ([ if includes home ".bashrc" || includes home ".bash_profile"
       then bash else zsh;
       bash; bash ]
     ++ if String.eqb platform "win32" then [powershell; powershell] else [])%list
  ∧ Forall (λ path, detectShellFromPath path ≠ unknown)
      (getShellConfigPaths env platform).
Proof.
  intros home.
  assert (detectShellFromPath (home +:+ "/.zshrc")
          = if includes home ".bashrc" || includes home ".bash_profile"
            then bash else zsh) as Hzsh.
  { rewrite (detectShellFromPath_in_directory home ".zshrc") by (simpl; lia).
    change (endsWith "/.zshrc" ".ps1") with false.
    change (includes ".zshrc" ".bashrc") with false.
    change (includes ".zshrc" ".bash_profile") with false.
    change (includes ".zshrc" ".zshrc") with true.
    rewrite !orb_false_r, orb_true_r. done. }
  assert (detectShellFromPath (home +:+ "/.bashrc") = bash) as Hbashrc.
  { rewrite (detectShellFromPath_in_directory home ".bashrc") by (simpl; lia).
    change (endsWith "/.bashrc" ".ps1") with false.
    change (includes ".bashrc" ".bashrc") with true.
    by rewrite orb_true_r. }
  assert (detectShellFromPath (home +:+ "/.bash_profile") = bash) as Hprofile.
  { rewrite (detectShellFromPath_in_directory home ".bash_profile")
      by (simpl; lia).
    change (endsWith "/.bash_profile" ".ps1") with false.
    change (includes ".bash_profile" ".bash_profile") with true.
    by rewrite !orb_true_r. }
  assert (∀ userProfile tail,
            endsWith tail ".ps1" = true → 4 ≤ String.length tail →
            detectShellFromPath (userProfile +:+ tail) = powershell) as Hps.
  { intros userProfile tail Hends Hlen. unfold detectShellFromPath.
    by rewrite endsWith_append_long, Hends by (simpl; lia). }
  assert (getShellConfigPaths env platform
          = ([ home +:+ "/.zshrc"; home +:+ "/.bashrc";
               home +:+ "/.bash_profile" ]
             ++ if String.eqb platform "win32" then
                  [ default EmptyString (env !! "USERPROFILE")
                    +:+ "/Documents/PowerShell/Microsoft.PowerShell_profile.ps1";
                    default EmptyString (env !! "USERPROFILE")
                    +:+ "/Documents/WindowsPowerShell/Microsoft.PowerShell_profile.ps1" ]
                else [])%list) as ->.
  { unfold getShellConfigPaths, home.
    destruct (env !! "HOME"); by destruct (String.eqb platform "win32"). }
  split.
  - rewrite fmap_app. cbn [fmap list_fmap]. rewrite Hzsh, Hbashrc, Hprofile.
    f_equal. destruct (String.eqb platform "win32"); [|done].
    cbn [fmap list_fmap]. by rewrite !Hps by (reflexivity || (simpl; lia)).
  - apply Forall_app. split.
    + repeat apply Forall_cons_2; try apply Forall_nil_2;
        rewrite ?Hzsh, ?Hbashrc, ?Hprofile; try done.
      by destruct (includes home ".bashrc" || includes home ".bash_profile").
    + destruct (String.eqb platform "win32"); [|apply Forall_nil_2].
      repeat apply Forall_cons_2; try apply Forall_nil_2;
        by rewrite Hps by (reflexivity || (simpl; lia)).
Qed.

End ShellExtras.

(** ** Discovery of the configuration file *)
Module DiscoveryExtras.
Import ConfigDiscovery.
Local Open Scope nat_scope.

Section Discovery.
Context `{Host}.

Lemma has_config_files (dir : string) :
  has_config dir = true ↔
  ∃ configFile, configFile ∈ configFiles
                ∧ existsSync (join dir configFile) = true.
Proof.
  unfold has_config. rewrite existsb_exists. split.
  - intros (f & Hin & Hex). exists f. by rewrite list_elem_of_In.
  - intros (f & Hin & Hex). exists f. by rewrite <-list_elem_of_In.
Qed.

Lemma findConfigDir_some (fuel : nat) (startDir dir : string) :
  findConfigDir fuel startDir = Some (Some dir) →
  dir ≠ dirname dir ∧ has_config dir = true ∧
  ∃ k, k < fuel ∧ dir = Nat.iter k dirname startDir.
Proof.
  revert startDir. induction fuel as [|fuel IH]; intros startDir; [done|].
  simpl. destruct (String.eqb startDir (dirname startDir)) eqn:Hroot; [done|].
  cbn [negb]. apply String.eqb_neq in Hroot.
  destruct (has_config startDir) eqn:Hcfg.
  - intros [= <-]. split_and!; [done | done |]. exists 0. split; [lia | done].
  - intros (Hne & Hhas & k & Hk & ->)%IH. split_and!; [done | done |].
    exists (S k). split; [lia|]. by rewrite Nat.iter_succ_r.
Qed.

(** X26. What [findConfigDir] returns is a directory that holds one of
    the four configuration files, lies on the chain of parents of the start
    directory, and is not the top of that chain: a directory that is its
    own parent (the file-system root) is never returned, whatever it
    holds. *)
Theorem findConfigDir_sound (fuel : nat) (startDir dir : string) :
  findConfigDir fuel startDir = Some (Some dir) →
  (∃ configFile, configFile ∈ configFiles
                 ∧ existsSync (join dir configFile) = true)
  ∧ (∃ k, dir = Nat.iter k dirname startDir)
  ∧ dir ≠ dirname dir.
Proof.
  intros (Hne & Hhas & k & _ & Hk)%findConfigDir_some.
  split_and!; [by apply has_config_files | by exists k | done].
Qed.

(** X27. When the chain of parents of the start directory reaches a
    directory that is its own parent after [n] steps, the loop of
    [findConfigDir] ends within [n + 1] iterations, and it returns the
    first of the [n] directories below that top (the start directory
    first) that holds a configuration file, or [null] when none does. The
    top directory itself is not looked at. *)
Theorem findConfigDir_first_ancestor (startDir : string) (n : nat) :
  Forall (λ dir, dir ≠ dirname dir) (ancestors n startDir) →
  Nat.iter n dirname startDir = dirname (Nat.iter n dirname startDir) →
  ∀ fuel, n < fuel →
    findConfigDir fuel startDir
    = Some (List.find has_config (ancestors n startDir)).
Proof.
  revert startDir. induction n as [|n IH]; intros startDir Hchain Htop fuel Hfuel;
    (destruct fuel as [|fuel]; [lia|]); simpl.
  - simpl in Htop. apply String.eqb_eq in Htop. by rewrite Htop.
  - simpl in Hchain. apply Forall_cons in Hchain as [Hne Hchain].
    apply String.eqb_neq in Hne. rewrite Hne. cbn [negb].
    destruct (has_config startDir); [done|].
    apply IH; [done | by rewrite <-Nat.iter_succ_r | lia].
Qed.

Lemma first_js_config_spec (configDir : string) (files : list string) :
  match first_js_config configDir files with
  | Some info =>
      type info = js ∧ existsSync (path info) = true ∧
      ∃ configFile, configFile ∈ files ∧ path info = join configDir configFile
  | None => Forall (λ f, existsSync (join configDir f) = false) files
  end.
Proof.
  induction files as [|f rest IH]; simpl; [done|].
  destruct (existsSync (join configDir f)) eqn:Hex.
  - simpl. split_and!; [done | done |]. exists f. split; [left | done].
  - destruct (first_js_config configDir rest) as [info|].
    + destruct IH as (Hty & Hpath & g & Hin & Hg).
      split_and!; [done | done |]. exists g. split; [by right | done].
    + by apply Forall_cons.
Qed.

Lemma getConfigFilePath_none (configDir : string) :
  getConfigFilePath configDir = None ↔ has_config configDir = false.
Proof.
  unfold getConfigFilePath, has_config, configFiles, jsConfigs. simpl.
  destruct (existsSync (join configDir CONFIG_FILENAME)); [done|].
  destruct (existsSync (join configDir "veil.config.js"));
    [by rewrite ?orb_true_r|].
  destruct (existsSync (join configDir "veil.config.mjs"));
    [by rewrite ?orb_true_r|].
  by destruct (existsSync (join configDir "veil.config.ts")).
Qed.

(** X28. [findConfigDir] and [getConfigFilePath] agree on what a
    configuration file is, although they list the names in different
    orders: [getConfigFilePath] returns [null] exactly for the directories
    [findConfigDir] would pass over, so in a directory [findConfigDir]
    returned it always finds a file. The path it returns exists and is the
    directory joined with one of the four names, and its type is [json]
    exactly when [.veilrc.json] exists there, whatever else does. *)
Theorem getConfigFilePath_in_found_dir (fuel : nat) (startDir dir : string) :
  (∀ configDir, getConfigFilePath configDir = None
                ↔ has_config configDir = false)
  ∧ (findConfigDir fuel startDir = Some (Some dir) →
     ∃ info,
       getConfigFilePath dir = Some info ∧
       existsSync (path info) = true ∧
       (∃ configFile, configFile ∈ configFiles
                      ∧ path info = join dir configFile) ∧
       (type info = json ↔ existsSync (join dir CONFIG_FILENAME) = true) ∧
       (type info = json → path info = join dir CONFIG_FILENAME)).
Proof.
  split; [apply getConfigFilePath_none|].
  intros (_ & Hhas & _)%findConfigDir_some.
  destruct (getConfigFilePath dir) as [info|] eqn:Hget;
    [|apply getConfigFilePath_none in Hget; congruence].
  exists info. split; [done|]. unfold getConfigFilePath in Hget.
  destruct (existsSync (join dir CONFIG_FILENAME)) eqn:Hjson.
  - injection Hget as <-. simpl. split_and!; try done.
    exists CONFIG_FILENAME. split; [left | done].
  - pose proof (first_js_config_spec dir jsConfigs) as Hjs.
    rewrite Hget in Hjs. destruct Hjs as (Hty & Hpath & f & Hin & Hf).
    split_and!; [done | | by rewrite Hty | by rewrite Hty].
    exists f. split; [|done].
    unfold jsConfigs in Hin. unfold configFiles.
    rewrite !elem_of_cons in Hin. rewrite !elem_of_cons.
    destruct Hin as [->|[->|[->|Hin]]]; [tauto | tauto | tauto |].
    by apply elem_of_nil in Hin.
Qed.

End Discovery.

Lemma findConfigDir_sound_witness :
  (∃ configFile, configFile ∈ configFiles
     ∧ existsb (String.eqb (Posix.join "/home/user/project" configFile))
         ["/home/user/project/veil.config.ts"] = true)
  ∧ (∃ k, "/home/user/project" = Nat.iter k Posix.dirname "/home/user/project/src/cli")
  ∧ "/home/user/project" ≠ Posix.dirname "/home/user/project".
Proof.
  apply (findConfigDir_sound
           (H:=Posix.host ["/home/user/project/veil.config.ts"])
           10 "/home/user/project/src/cli" "/home/user/project").
  reflexivity.
Defined.

Lemma findConfigDir_first_ancestor_witness :
  findConfigDir (H:=Posix.host ["/home/user/.veilrc.json"; "/veil.config.js"])
    10 "/home/user/project/src"
  = Some (Some "/home/user")
  ∧ findConfigDir (H:=Posix.host ["/veil.config.js"]) 10 "/home/user/project/src"
    = Some None.
Proof.
  split.
  - apply (findConfigDir_first_ancestor
             (H:=Posix.host ["/home/user/.veilrc.json"; "/veil.config.js"])
             "/home/user/project/src" 4); [| reflexivity | lia].
    repeat constructor; discriminate.
  - apply (findConfigDir_first_ancestor
             (H:=Posix.host ["/veil.config.js"])
             "/home/user/project/src" 4); [| reflexivity | lia].
    repeat constructor; discriminate.
Defined.

Lemma getConfigFilePath_in_found_dir_witness :
  ∃ info,
    getConfigFilePath
      (H:=Posix.host ["/home/user/veil.config.ts"; "/home/user/.veilrc.json"])
      "/home/user" = Some info ∧
    existsb (String.eqb (path info))
      ["/home/user/veil.config.ts"; "/home/user/.veilrc.json"] = true ∧
    (∃ configFile, configFile ∈ configFiles
                   ∧ path info = Posix.join "/home/user" configFile) ∧
    (type info = json ↔
     existsb (String.eqb (Posix.join "/home/user" CONFIG_FILENAME))
       ["/home/user/veil.config.ts"; "/home/user/.veilrc.json"] = true) ∧
    (type info = json → path info = Posix.join "/home/user" CONFIG_FILENAME).
Proof.
  apply (proj2 (getConfigFilePath_in_found_dir
                  (H:=Posix.host ["/home/user/veil.config.ts";
                                  "/home/user/.veilrc.json"])
                  10 "/home/user/project/src" "/home/user")).
  reflexivity.
Defined.

End DiscoveryExtras.
